(** * divachain: block production, transaction stacking and stake credits

    A shallow embedding of the block constructor and verifier
    (blockchain/block.ts), the transaction constructor (chain/transaction),
    the transaction pool (pool/transaction-pool.ts), the wallet
    (chain/wallet.ts) and the stake-credit part of the server
    (net/server.ts), followed by the properties proved about them.

    Conventions of the embedding:
    - a JavaScript string is a [string]; one [ascii] stands for one code
      unit, so [String.length] is [.length] and [String.compare] is the
      code-unit order used by [<] and [>] on strings;
    - a JavaScript number that holds a height, a timestamp, a sequence
      number, a stake or a credit is an integer [Z] (these values stay in
      the range where doubles are exact), printed in decimal by [pretty];
      the quorum is a rational [Q], so that [quorum * -0.5] is exact;
    - [Date.now()] and the entropy read by [nanoid] are explicit arguments;
    - keys and signatures are carried in their base64url text form. *)

From Stdlib Require Import ZArith QArith List String Ascii Permutation Lia.
From Stdlib Require Import Sorting.Sorted.
From stdpp Require Import base option list gmap strings pretty.

Local Open Scope Z_scope.

(** ** JSON values and [JSON.stringify] *)

(** A JavaScript object is an insertion-ordered property list. *)
Unset Elimination Schemes.
Inductive JSON : Type :=
| JNull
| JBool (b : bool)
| JNumber (n : Z)
| JString (s : string)
| JArray (items : list JSON)
| JObject (props : list (string * JSON)).
Set Elimination Schemes.

Abbreviation JSObject := (list (string * JSON)).

(** [o[k]]: [None] is [undefined]. *)
Fixpoint get_prop (k : string) (o : JSObject) : option JSON :=
  match o with
  | [] => None
  | (k', v) :: o' => if String.eqb k' k then Some v else get_prop k o'
  end.

(** [o[k] = v]: an existing property keeps its place, a new one goes last. *)
Fixpoint set_prop (k : string) (v : JSON) (o : JSObject) : JSObject :=
  match o with
  | [] => [(k, v)]
  | (k', v') :: o' =>
      if String.eqb k' k then (k, v) :: o' else (k', v') :: set_prop k v o'
  end.

Definition dquote : ascii := ascii_of_nat 34.
Definition backslash : ascii := ascii_of_nat 92.

Definition hex_digit (n : nat) : ascii :=
  match n with
  | 0 => "0" | 1 => "1" | 2 => "2" | 3 => "3" | 4 => "4" | 5 => "5"
  | 6 => "6" | 7 => "7" | 8 => "8" | 9 => "9" | 10 => "a" | 11 => "b"
  | 12 => "c" | 13 => "d" | 14 => "e" | _ => "f"
  end%char%nat.

(** One code unit inside a JSON string literal. *)
Definition quote_unit (c : ascii) : string :=
  let n := nat_of_ascii c in
  if Nat.eqb n 34 then String backslash (String dquote "")
  else if Nat.eqb n 92 then String backslash (String backslash "")
  else if Nat.eqb n 8 then String backslash "b"
  else if Nat.eqb n 12 then String backslash "f"
  else if Nat.eqb n 10 then String backslash "n"
  else if Nat.eqb n 13 then String backslash "r"
  else if Nat.eqb n 9 then String backslash "t"
  else if Nat.ltb n 32 then
    String backslash
      (String "u" (String "0" (String "0"
        (String (hex_digit (Nat.div n 16)) (String (hex_digit (Nat.modulo n 16)) "")))))
  else String c "".

Fixpoint quote_units (s : string) : string :=
  match s with
  | EmptyString => ""
  | String c s' => quote_unit c +:+ quote_units s'
  end.

Definition JSON_quote (s : string) : string :=
  String dquote (quote_units s +:+ String dquote "").

Fixpoint join_comma (l : list string) : string :=
  match l with
  | [] => ""
  | [s] => s
  | s :: l' => s +:+ "," +:+ join_comma l'
  end.

(** [JSON.stringify(v)] without indentation. *)
Fixpoint JSON_stringify (v : JSON) : string :=
  match v with
  | JNull => "null"
  | JBool true => "true"
  | JBool false => "false"
  | JNumber n => pretty n
  | JString s => JSON_quote s
  | JArray items => "[" +:+ join_comma (List.map JSON_stringify items) +:+ "]"
  | JObject props =>
      "{" +:+ join_comma
                (List.map (fun p => JSON_quote (fst p) +:+ ":" +:+ JSON_stringify (snd p)) props)
          +:+ "}"
  end.

(** [JSON.stringify(undefined)] is [undefined]. *)
Definition JSON_stringify_opt (v : option JSON) : option string :=
  match v with
  | Some j => Some (JSON_stringify j)
  | None => None
  end.


(** ** External collaborators

    [ChainUtil.hash] and [ChainUtil.verifySignature] (chain-util), the
    detached signature of sodium-native used by the wallet, and [nanoid]
    are not part of the files embedded here.  They are taken as an
    interface with the two contracts the code relies on: a signature made
    with the secret key of a key pair verifies under its public key, and
    [nanoid n] returns [n] characters of the URL-safe alphabet. *)

Definition url_safe (c : ascii) : bool :=
  let n := nat_of_ascii c in
  (Nat.leb 65 n && Nat.leb n 90) || (Nat.leb 97 n && Nat.leb n 122)
  || (Nat.leb 48 n && Nat.leb n 57) || Nat.eqb n 95 || Nat.eqb n 45.

Fixpoint all_units (p : ascii -> bool) (s : string) : bool :=
  match s with
  | EmptyString => true
  | String c s' => p c && all_units p s'
  end.

Class Externals := {
  (** [ChainUtil.hash(s)] *)
  ChainUtil_hash : string -> string;
  (** [ChainUtil.verifySignature(publicKey, sig, data)] *)
  ChainUtil_verifySignature : string -> string -> string -> bool;
  (** [sodium.crypto_sign_detached(_, data, secretKey)], base64url-encoded *)
  crypto_sign_detached : string -> string -> string;
  (** [(publicKey, secretKey)] is a pair issued by [sodium.crypto_sign_keypair] *)
  crypto_sign_keypair : string -> string -> bool;
  (** the random source read by [nanoid] *)
  Entropy : Type;
  nanoid : nat -> Entropy -> string;
  sign_verifies : forall pk sk data,
    crypto_sign_keypair pk sk = true ->
    ChainUtil_verifySignature pk (crypto_sign_detached data sk) data = true;
  nanoid_length : forall n e, String.length (nanoid n e) = n;
  nanoid_url_safe : forall n e, all_units url_safe (nanoid n e) = true
}.

(** ** chain/wallet.ts *)

Module Wallet.

(** An opened wallet: the two key buffers. *)
Record t := mk { publicKey : string; secretKey : string }.

Section Methods.
Context `{Externals}.

Definition sign (w : t) (data : string) : string :=
  crypto_sign_detached data (secretKey w).

Definition getPublicKey (w : t) : string := publicKey w.

(** The wallet holds a key pair, as [open()] leaves it when it generates
    the keys or reads back the files it wrote. *)
Definition well_keyed (w : t) : Prop :=
  crypto_sign_keypair (publicKey w) (secretKey w) = true.

End Methods.
End Wallet.

(** ** chain/transaction *)

(** A command is a JavaScript object ([seq], [command] and the fields of
    its variant); [ArrayCommand] is an array of them. *)
Abbreviation Command := (list (string * JSON)).
Abbreviation ArrayCommand := (list (list (string * JSON))).

Definition commands_json (commands : ArrayCommand) : JSON :=
  JArray (List.map JObject commands).

(** [arrange ks o]: the properties of [o], those named in [ks] first and
    in the order of [ks], the others after them as they stand. *)
Fixpoint take_prop (k : string) (o : JSObject) : option ((string * JSON) * JSObject) :=
  match o with
  | [] => None
  | p :: o' =>
      if String.eqb (fst p) k then Some (p, o')
      else match take_prop k o' with
           | Some (q, rest) => Some (q, p :: rest)
           | None => None
           end
  end.

Fixpoint arrange (ks : list string) (o : JSObject) : JSObject :=
  match ks with
  | [] => o
  | k :: ks' =>
      match take_prop k o with
      | Some (p, rest) => p :: arrange ks' rest
      | None => arrange ks' o
      end
  end.

Module TransactionStruct.

(** The five typed properties, and [keys]: their names in the order in
    which the object behind the struct got them, which is the order
    [JSON.stringify] writes them in. *)
Record t := mk {
  ident : string;
  origin : string;
  timestamp : Z;
  commands : ArrayCommand;
  sig : string;
  keys : list string
}.

(** The order of the object literal in the [Transaction] constructor. *)
Definition literal_keys : list string :=
  [ "ident"; "origin"; "timestamp"; "commands"; "sig" ].

Definition properties (x : t) : JSObject :=
  [ ("ident", JString (ident x));
    ("origin", JString (origin x));
    ("timestamp", JNumber (timestamp x));
    ("commands", commands_json (commands x));
    ("sig", JString (sig x)) ].

(** The object behind the struct, with its properties in its own order. *)
Definition to_object (x : t) : JSObject := arrange (keys x) (properties x).

Definition to_json (x : t) : JSON := JObject (to_object x).

End TransactionStruct.

Module Transaction.

Definition MAX_LENGTH_IDENT : nat := 32.

Section Constructor.
Context `{Externals}.

(** [new Transaction(wallet, commands, ident).get()], with the clock
    reading [now] and the entropy [rnd]. *)
Definition new (wallet : Wallet.t) (commands : ArrayCommand) (ident : string)
    (now : Z) (rnd : Entropy) : TransactionStruct.t :=
  let _ident :=
    if Nat.ltb 0 (String.length ident) && Nat.leb (String.length ident) MAX_LENGTH_IDENT
    then ident else nanoid 8 rnd in
  let _ts := now in
  {| TransactionStruct.ident := _ident;
     TransactionStruct.origin := Wallet.getPublicKey wallet;
     TransactionStruct.timestamp := _ts;
     TransactionStruct.commands := commands;
     TransactionStruct.sig :=
       Wallet.sign wallet
         (_ident +:+ pretty _ts +:+ JSON_stringify (commands_json commands));
     TransactionStruct.keys := TransactionStruct.literal_keys |}.

End Constructor.
End Transaction.

(** The message a transaction signature covers:
    [ident + timestamp + JSON.stringify(commands)]. *)
Definition tx_message (x : TransactionStruct.t) : string :=
  TransactionStruct.ident x +:+ pretty (TransactionStruct.timestamp x)
    +:+ JSON_stringify (commands_json (TransactionStruct.commands x)).

(** ** [Array.prototype.sort]

    [a.sort(comparefn)] as the engine of Node.js sorts an array of fewer
    than 64 elements: it is one run, grown by binary insertion.  Taking
    the elements from the left, each one is put into the part sorted so
    far, in front of the first element [y] with [comparefn(x, y) < 0].
    (The run the engine starts from, an ascending stretch or a
    descending one reversed, is what these insertions give for that
    stretch, and on a sorted part the binary search ends where the
    search from the left does.)  With the comparator of the block
    constructor, which answers -1 for equal origins, an element goes in
    front of the earlier ones of its origin.  An array of 64 or more
    elements is merged from several runs: its result is in ascending
    order as well, but among equal origins the order can differ from the
    one computed here. *)

Section ArraySort.
Context {A : Type} (comparefn : A -> A -> Z).

Fixpoint sort_insert (x : A) (l : list A) : list A :=
  match l with
  | [] => [x]
  | y :: l' => if comparefn x y <? 0 then x :: y :: l' else y :: sort_insert x l'
  end.

Definition Array_sort (l : list A) : list A :=
  fold_left (fun sorted x => sort_insert x sorted) l [].

End ArraySort.

(** ** blockchain/block.ts *)

Module VoteStruct.

Record t := mk { type : Z; origin : string; hash : string; sig : string }.

End VoteStruct.

Module BlockStruct.

Record t := mk {
  version : Z;
  timestamp : Z;
  previousHash : string;
  hash : string;
  tx : list TransactionStruct.t;
  origin : string;
  sig : string;
  height : Z;
  votes : list VoteStruct.t
}.

End BlockStruct.

(** [JSON.stringify(tx)] of an array of transactions. *)
Definition tx_json (tx : list TransactionStruct.t) : JSON :=
  JArray (List.map TransactionStruct.to_json tx).

(** The comparator [(a, b) => (a.origin > b.origin ? 1 : -1)]. *)
Definition by_origin (a b : TransactionStruct.t) : Z :=
  if String.ltb (TransactionStruct.origin b) (TransactionStruct.origin a) then 1 else -1.

Module Block.

Record t := mk {
  previousBlock : BlockStruct.t;
  version : Z;
  timestamp : Z;
  height : Z;
  previousHash : string;
  hash : string;
  tx : list TransactionStruct.t;
  origin : string;
  sig : string
}.

Section Methods.
Context `{Externals}.

(** [new Block(previousBlock, tx, wallet)], with the clock reading [now]. *)
Definition new (previousBlock : BlockStruct.t) (tx : list TransactionStruct.t)
    (wallet : Wallet.t) (now : Z) : t :=
  let this_version := 1 in
  let this_timestamp := now in
  let this_previousHash := BlockStruct.hash previousBlock in
  let this_height := BlockStruct.height previousBlock + 1 in
  let this_tx := Array_sort by_origin tx in
  let this_hash :=
    ChainUtil_hash
      (this_previousHash +:+ pretty this_version +:+ pretty this_timestamp
         +:+ pretty this_height +:+ JSON_stringify (tx_json this_tx)) in
  let this_origin := Wallet.getPublicKey wallet in
  let this_sig := Wallet.sign wallet this_hash in
  {| previousBlock := previousBlock;
     version := this_version;
     timestamp := this_timestamp;
     height := this_height;
     previousHash := this_previousHash;
     hash := this_hash;
     tx := this_tx;
     origin := this_origin;
     sig := this_sig |}.

Definition get (this : t) : BlockStruct.t :=
  {| BlockStruct.version := version this;
     BlockStruct.timestamp := timestamp this;
     BlockStruct.previousHash := previousHash this;
     BlockStruct.hash := hash this;
     BlockStruct.tx := tx this;
     BlockStruct.origin := origin this;
     BlockStruct.sig := sig this;
     BlockStruct.height := height this;
     BlockStruct.votes := [] |}.

Definition blockHash (block : BlockStruct.t) : string :=
  ChainUtil_hash
    (BlockStruct.previousHash block +:+ pretty (BlockStruct.version block)
       +:+ pretty (BlockStruct.timestamp block) +:+ pretty (BlockStruct.height block)
       +:+ JSON_stringify (tx_json (BlockStruct.tx block))).

Definition verifyBlock (block : BlockStruct.t) : bool :=
  ChainUtil_verifySignature (BlockStruct.origin block) (BlockStruct.sig block)
    (BlockStruct.hash block).

End Methods.
End Block.

(** ** pool/transaction-pool.ts

    The pool stores the objects it is handed.  [isValid] reads the
    properties [origin], [signature] and [transaction] of its argument;
    a property the object does not have reads as [undefined]. *)

(** Modelled from the spec: [ChainUtil.verifySignature] (chain-util, not
    among the sources) on values read from an object.  Verification is
    that of a detached signature over strings; a missing key, signature or
    message is nothing that could verify. *)
Definition verifySignature_values `{Externals}
    (publicKey sig : option JSON) (data : option string) : bool :=
  match publicKey, sig, data with
  | Some (JString pk), Some (JString s), Some d => ChainUtil_verifySignature pk s d
  | _, _, _ => false
  end.

Module TransactionPool.

Record t := mk { transactions : list JSObject }.

Definition empty : t := {| transactions := [] |}.

(** [add(t)]: pushes, and answers [false]. *)
Definition add (this : t) (x : JSObject) : t * bool :=
  ({| transactions := transactions this ++ [x] |}, false).

Definition clear (this : t) : t := {| transactions := [] |}.

Definition isValid `{Externals} (x : JSObject) : bool :=
  verifySignature_values (get_prop "origin" x) (get_prop "signature" x)
    (JSON_stringify_opt (get_prop "transaction" x)).

End TransactionPool.

(** ** net/block-factory *)

Module BlockFactory.

(** Modelled from the spec: the block factory holds the pool of pending
    local transactions, keyed by [(origin, ident)]. *)
Record t := mk { pool : TransactionPool.t }.

(** The pending transaction [x] has this [(origin, ident)]. *)
Definition has_key (origin ident : string) (x : JSObject) : bool :=
  match get_prop "origin" x, get_prop "ident" x with
  | Some (JString o), Some (JString i) => String.eqb o origin && String.eqb i ident
  | _, _ => false
  end.

Definition pending (this : t) (origin ident : string) : bool :=
  existsb (has_key origin ident) (TransactionPool.transactions (pool this)).

(** Modelled from the spec: [BlockFactory.stack(commands, ident)], whose
    file net/block-factory is not among the sources.  It builds a
    transaction signed by the local wallet over the command list and
    appends it to the pool; it returns the transaction's ident, or the
    failure indicator ([None]) if another local transaction with the same
    [(origin, ident)] is already pending. *)
Definition stack `{Externals} (this : t) (wallet : Wallet.t)
    (commands : ArrayCommand) (ident : string) (now : Z) (rnd : Entropy)
    : t * option string :=
  let x := Transaction.new wallet commands ident now rnd in
  if pending this (TransactionStruct.origin x) (TransactionStruct.ident x)
  then (this, None)
  else
    ({| pool := fst (TransactionPool.add (pool this) (TransactionStruct.to_object x)) |},
     Some (TransactionStruct.ident x)).

End BlockFactory.

(** ** net/server.ts *)

(** [Blockchain.COMMAND_MODIFY_STAKE], with the value the server test
    suite writes into its genesis commands. *)
Definition COMMAND_MODIFY_STAKE : string := "modifyStake".

(** [a > b] on numbers. *)
Definition Q_gtb (a b : Q) : bool := negb (Qle_bool a b).

(** [commands.map((c) => { c.seq = s; s++; return c; })] from [s], on an
    array of pairwise different objects; what the writes do to an object
    that stands at several indices is [number_in_place] below. *)
Fixpoint assign_seq (s : Z) (commands : ArrayCommand) : ArrayCommand :=
  match commands with
  | [] => []
  | c :: commands' => set_prop "seq" (JNumber s) c :: assign_seq (s + 1) commands'
  end.

Module Server.

(** What a call reads from the blockchain, the network and the
    configuration: [blockchain.getQuorum()],
    [network.getArrayNetwork().length], [config.network_p2p_interval_ms]. *)
Record Env := mkEnv {
  quorum : Q;
  network_length : Z;
  network_p2p_interval_ms : Z
}.

(** [mapModifyStake] keeps the insertion order of a [Map], which is the
    order its values are stacked in; [mapStakeCredit] is only read by key
    and summed.  [timeoutModifyStake] is the delay of the armed timer. *)
Record t := mk {
  wallet : Wallet.t;
  blockFactory : BlockFactory.t;
  mapModifyStake : list (string * Command);
  mapStakeCredit : gmap string Z;
  timeoutModifyStake : option Z
}.

(** [Map.has], [Map.set] (a present key keeps its place, a new one goes
    last) and [Map.values]. *)
Definition map_has (k : string) (m : list (string * Command)) : bool :=
  existsb (fun e => String.eqb (fst e) k) m.

Fixpoint map_set (k : string) (v : Command) (m : list (string * Command))
    : list (string * Command) :=
  match m with
  | [] => [(k, v)]
  | (k', v') :: m' =>
      if String.eqb k' k then (k, v) :: m' else (k', v') :: map_set k v m'
  end.

Definition map_values (m : list (string * Command)) : ArrayCommand :=
  List.map snd m.

(** [[...this.mapStakeCredit.values()].reduce((p, c) => p + c, 0)] *)
Definition sum_credit (m : gmap string Z) : Z :=
  map_fold (fun _ c p => p + c) 0 m.

(** [this.mapStakeCredit.get(publicKey) || 0] *)
Definition credit_of (m : gmap string Z) (publicKey : string) : Z :=
  default 0 (m !! publicKey).

(** The key [[forPublicKey, ident, stake].join('')]. *)
Definition modify_stake_key (forPublicKey ident : string) (stake : Z) : string :=
  forPublicKey +:+ ident +:+ pretty stake.

Definition modify_stake_command (forPublicKey ident : string) (stake : Z) : Command :=
  [ ("command", JString COMMAND_MODIFY_STAKE);
    ("publicKey", JString forPublicKey);
    ("ident", JString ident);
    ("stake", JNumber stake) ].

(** The admission test of [proposeModifyStake], on the credit already
    decremented and the sum of the table as it stands. *)
Definition admits (env : Env) (m : gmap string Z) (forPublicKey : string) : bool :=
  let credit := credit_of m forPublicKey - 1 in
  Q_gtb (inject_Z credit) (quorum env * - (1 # 2))
  && Q_gtb (inject_Z (sum_credit m)) (quorum env * - (1)).

Definition proposeModifyStake (env : Env) (this : t)
    (forPublicKey ident : string) (stake : Z) : t :=
  let k := modify_stake_key forPublicKey ident stake in
  if map_has k (mapModifyStake this) then this
  else
    let command := modify_stake_command forPublicKey ident stake in
    let credit := credit_of (mapStakeCredit this) forPublicKey - 1 in
    let this1 :=
      if admits env (mapStakeCredit this) forPublicKey
      then {| wallet := wallet this;
              blockFactory := blockFactory this;
              mapModifyStake := map_set k command (mapModifyStake this);
              mapStakeCredit := <[forPublicKey := credit]> (mapStakeCredit this);
              timeoutModifyStake := timeoutModifyStake this |}
      else this in
    {| wallet := wallet this1;
       blockFactory := blockFactory this1;
       mapModifyStake := mapModifyStake this1;
       mapStakeCredit := mapStakeCredit this1;
       timeoutModifyStake := Some (network_length env * network_p2p_interval_ms env) |}.

Definition incStakeCredit (this : t) (publicKey : string) : t :=
  {| wallet := wallet this;
     blockFactory := blockFactory this;
     mapModifyStake := mapModifyStake this;
     mapStakeCredit :=
       <[publicKey := credit_of (mapStakeCredit this) publicKey + 1]> (mapStakeCredit this);
     timeoutModifyStake := timeoutModifyStake this |}.

Section Stack.
Context `{Externals}.

(** [stackTx(commands, ident)]; [None] is the answer [false]. *)
Definition stackTx (this : t) (commands : ArrayCommand) (ident : string)
    (now : Z) (rnd : Entropy) : t * option string :=
  let r := BlockFactory.stack (blockFactory this) (wallet this)
             (assign_seq 1 commands) ident now rnd in
  let this' :=
    {| wallet := wallet this;
       blockFactory := fst r;
       mapModifyStake := mapModifyStake this;
       mapStakeCredit := mapStakeCredit this;
       timeoutModifyStake := timeoutModifyStake this |} in
  match snd r with
  | None => (this', None)
  | Some i => if String.eqb i "" then (this', None) else (this', Some i)
  end.

(** The callback armed by [proposeModifyStake], when its timer fires. *)
Definition fireModifyStake (this : t) (now : Z) (rnd : Entropy) : t :=
  let this1 := fst (stackTx this (map_values (mapModifyStake this)) "" now rnd) in
  {| wallet := wallet this1;
     blockFactory := blockFactory this1;
     mapModifyStake := [];
     mapStakeCredit := mapStakeCredit this1;
     timeoutModifyStake := None |}.

End Stack.
End Server.

(** ** Chains grown by the block constructor *)

(** A chain that starts at [genesis] and is extended, one block at a time,
    by a block built on its tip. *)
Inductive produced `{Externals} (genesis : BlockStruct.t) : list BlockStruct.t -> Prop :=
| produced_genesis : produced genesis [genesis]
| produced_next chain tip tx wallet now :
    produced genesis chain ->
    last chain = Some tip ->
    produced genesis (chain ++ [Block.get (Block.new tip tx wallet now)]).

(** The string a block hash is taken of:
    [previousHash + version + timestamp + height + JSON.stringify(tx)]. *)
Definition hash_input (previousHash : string) (version timestamp height : Z)
    (tx : list TransactionStruct.t) : string :=
  previousHash +:+ pretty version +:+ pretty timestamp +:+ pretty height
    +:+ JSON_stringify (tx_json tx).

(** Ascending order of origins, and one transaction per origin. *)
Definition origin_le (a b : TransactionStruct.t) : Prop :=
  String.le (TransactionStruct.origin a) (TransactionStruct.origin b).

Definition one_per_origin (tx : list TransactionStruct.t) : Prop :=
  List.NoDup (List.map TransactionStruct.origin tx).

(** [block] with another transaction array. *)
Definition with_tx (block : BlockStruct.t) (tx : list TransactionStruct.t) : BlockStruct.t :=
  {| BlockStruct.version := BlockStruct.version block;
     BlockStruct.timestamp := BlockStruct.timestamp block;
     BlockStruct.previousHash := BlockStruct.previousHash block;
     BlockStruct.hash := BlockStruct.hash block;
     BlockStruct.tx := tx;
     BlockStruct.origin := BlockStruct.origin block;
     BlockStruct.sig := BlockStruct.sig block;
     BlockStruct.height := BlockStruct.height block;
     BlockStruct.votes := BlockStruct.votes block |}.


(** ** Sequences of credit operations *)

(** The two methods that write the credit table. *)
Inductive credit_op : Type :=
| OpPropose (forPublicKey ident : string) (stake : Z)
| OpInc (publicKey : string).

Definition run_op (env : Server.Env) (this : Server.t) (op : credit_op) : Server.t :=
  match op with
  | OpPropose forPublicKey ident stake =>
      Server.proposeModifyStake env this forPublicKey ident stake
  | OpInc publicKey => Server.incStakeCredit this publicKey
  end.

Definition run_ops (env : Server.Env) (ops : list credit_op) (this : Server.t) : Server.t :=
  fold_left (run_op env) ops this.

(** Every credit is above [quorum * -0.5]; the sum of the credits is above
    [quorum * -1 - 1]. *)
Definition above_floor (env : Server.Env) (m : gmap string Z) : Prop :=
  forall k, (Server.quorum env * - (1 # 2) < inject_Z (Server.credit_of m k))%Q.

Definition above_global_floor (env : Server.Env) (m : gmap string Z) : Prop :=
  (Server.quorum env * - (1) - 1 < inject_Z (Server.sum_credit m))%Q.

(** ** Records with single fields replaced *)

(** [block] with another timestamp and height. *)
Definition with_time_height (block : BlockStruct.t) (timestamp height : Z) : BlockStruct.t :=
  {| BlockStruct.version := BlockStruct.version block;
     BlockStruct.timestamp := timestamp;
     BlockStruct.previousHash := BlockStruct.previousHash block;
     BlockStruct.hash := BlockStruct.hash block;
     BlockStruct.tx := BlockStruct.tx block;
     BlockStruct.origin := BlockStruct.origin block;
     BlockStruct.sig := BlockStruct.sig block;
     BlockStruct.height := height;
     BlockStruct.votes := BlockStruct.votes block |}.

(** [x] with another ident and timestamp. *)
Definition with_ident_timestamp (x : TransactionStruct.t) (ident : string) (timestamp : Z)
    : TransactionStruct.t :=
  {| TransactionStruct.ident := ident;
     TransactionStruct.origin := TransactionStruct.origin x;
     TransactionStruct.timestamp := timestamp;
     TransactionStruct.commands := TransactionStruct.commands x;
     TransactionStruct.sig := TransactionStruct.sig x;
     TransactionStruct.keys := TransactionStruct.keys x |}.

(** The pool after [add] of each object of [xs] in turn. *)
Definition add_all (this : TransactionPool.t) (xs : list JSObject) : TransactionPool.t :=
  fold_left (fun p x => fst (TransactionPool.add p x)) xs this.

(** ** Notions of the specification that the code is compared with *)

(** Two transactions with the same data: the same ident, origin,
    timestamp and signature, and command by command the same properties,
    in whatever order the objects hold them.  A canonical encoding, which
    writes keys in a fixed order, gives such transactions the same text. *)
Definition same_fields (a b : TransactionStruct.t) : Prop :=
  TransactionStruct.ident a = TransactionStruct.ident b
  /\ TransactionStruct.origin a = TransactionStruct.origin b
  /\ TransactionStruct.timestamp a = TransactionStruct.timestamp b
  /\ TransactionStruct.sig a = TransactionStruct.sig b
  /\ Forall2 (fun c c' : JSObject => Permutation c c')
       (TransactionStruct.commands a) (TransactionStruct.commands b).

Definition same_data (tx tx' : list TransactionStruct.t) : Prop :=
  Forall2 same_fields tx tx'.

(** The candidate [(forPublicKey, ident, stake)] is pending: one of the
    commands held in the modify-stake map carries these three values. *)
Definition names_candidate (forPublicKey ident : string) (stake : Z) (c : Command) : bool :=
  match get_prop "publicKey" c, get_prop "ident" c, get_prop "stake" c with
  | Some (JString p), Some (JString i), Some (JNumber n) =>
      String.eqb p forPublicKey && String.eqb i ident && (n =? stake)
  | _, _, _ => false
  end.

Definition candidate_pending (m : list (string * Command))
    (forPublicKey ident : string) (stake : Z) : bool :=
  existsb (names_candidate forPublicKey ident stake) (Server.map_values m).

(** ** The numbering of [stackTx] on the objects themselves

    [commands.map((c) => { c.seq = s; s++; return c; })] writes into the
    objects the array refers to.  Here the array is a list of references
    into a heap of objects; an object that stands at two indices is
    written twice.  [assign_seq] above is this numbering read off an
    array of pairwise different objects. *)
Fixpoint number_in_place (s : Z) (refs : list nat) (heap : gmap nat JSObject)
    : gmap nat JSObject :=
  match refs with
  | [] => heap
  | r :: refs' =>
      number_in_place (s + 1) refs' (alter (set_prop "seq" (JNumber s)) r heap)
  end.

(** ** A small instance of the external collaborators

    Text stand-ins for the hash, the signature scheme and the id
    generator, used to run the definitions on concrete inputs. *)

Module Sample.

Definition hash (s : string) : string := "#" +:+ s.

Definition keypair (pk sk : string) : bool := String.eqb pk ("pub-" +:+ sk).

Definition sign (data sk : string) : string := "pub-" +:+ sk +:+ "|" +:+ data.

Definition verify (pk sig data : string) : bool := String.eqb sig (pk +:+ "|" +:+ data).

Fixpoint replicate_unit (n : nat) (c : ascii) : string :=
  match n with
  | O => ""
  | S n' => String c (replicate_unit n' c)
  end.

Definition id (n : nat) (e : bool) : string :=
  replicate_unit n (if e then "x" else "7")%char.

Lemma sign_verify pk sk data :
  keypair pk sk = true -> verify pk (sign data sk) data = true.
Proof.
  unfold keypair, verify, sign. intros Hk.
  apply String.eqb_eq in Hk. subst pk. simpl. apply String.eqb_refl.
Qed.

Lemma id_length n e : String.length (id n e) = n.
Proof. unfold id. induction n as [|n IH]; simpl; [reflexivity | now rewrite IH]. Qed.

Lemma id_url_safe n e : all_units url_safe (id n e) = true.
Proof. unfold id. induction n as [|n IH]; [reflexivity|]. destruct e; simpl in *; exact IH. Qed.

Definition externals : Externals :=
  {| ChainUtil_hash := hash;
     ChainUtil_verifySignature := verify;
     crypto_sign_detached := sign;
     crypto_sign_keypair := keypair;
     Entropy := bool;
     nanoid := id;
     sign_verifies := sign_verify;
     nanoid_length := id_length;
     nanoid_url_safe := id_url_safe |}.

Definition wallet : Wallet.t := {| Wallet.publicKey := "pub-k1"; Wallet.secretKey := "k1" |}.

Definition genesis : BlockStruct.t :=
  {| BlockStruct.version := 1;
     BlockStruct.timestamp := 88355100000;
     BlockStruct.previousHash := "";
     BlockStruct.hash := "g";
     BlockStruct.tx := [];
     BlockStruct.origin := "0";
     BlockStruct.sig := "0";
     BlockStruct.height := 0;
     BlockStruct.votes := [] |}.

(** Two transactions of one origin, and one of a smaller origin. *)
Definition tx_b1 : TransactionStruct.t :=
  TransactionStruct.mk "t1" "pub-b" 10 [] "s1" TransactionStruct.literal_keys.
Definition tx_b2 : TransactionStruct.t :=
  TransactionStruct.mk "t2" "pub-b" 11 [] "s2" TransactionStruct.literal_keys.
Definition tx_a : TransactionStruct.t :=
  TransactionStruct.mk "t3" "pub-a" 12 [] "s3" TransactionStruct.literal_keys.

(** Blocks built on the genesis block at clock reading 100. *)
Definition block_1 : BlockStruct.t :=
  Block.get (Block.new (H := externals) genesis [tx_b1; tx_a] wallet 100).

Definition block_same_origin : BlockStruct.t :=
  Block.get (Block.new (H := externals) genesis [tx_b1; tx_b2] wallet 100).

(** [block_1] with its transactions put back out of order. *)
Definition block_out_of_order : BlockStruct.t := with_tx block_1 [tx_b1; tx_a].

Definition test_load : Command :=
  [ ("command", JString "testLoad"); ("timestamp", JNumber 7) ].

Definition transaction_1 : TransactionStruct.t :=
  Transaction.new (H := externals) wallet [test_load] "abc" 1700000000000 true.

Definition server_0 : Server.t :=
  {| Server.wallet := wallet;
     Server.blockFactory := {| BlockFactory.pool := TransactionPool.empty |};
     Server.mapModifyStake := [];
     Server.mapStakeCredit := ∅;
     Server.timeoutModifyStake := None |}.

(** A quorum of 4 in a network of 5 nodes. *)
Definition env_4 : Server.Env :=
  {| Server.quorum := 4 # 1;
     Server.network_length := 5;
     Server.network_p2p_interval_ms := 3000 |}.

(** [server_0] after a first proposal against the key [pub-b]. *)
Definition server_1 : Server.t :=
  Server.proposeModifyStake env_4 server_0 "pub-b" "m1" 1.

(** [server_0] after [stackTx] of one command under the ident [abc]. *)
Definition server_stacked : Server.t :=
  fst (Server.stackTx (H := externals) server_0 [test_load] "abc" 1700000000000 true).

(** An object of the shape [isValid] reads: [signature] is the wallet's
    signature over [JSON.stringify(transaction)]. *)
Definition pool_payload : JSON := JObject [("ns", JString "test"); ("n", JNumber 3)].

Definition pool_entry : JSObject :=
  [ ("origin", JString (Wallet.publicKey wallet));
    ("signature", JString (sign (JSON_stringify pool_payload) (Wallet.secretKey wallet)));
    ("transaction", pool_payload) ].

(** Two transactions with the same data; the one command of the second
    holds its two properties in the other order. *)
Definition tx_load : TransactionStruct.t :=
  TransactionStruct.mk "t4" "pub-c" 13 [test_load] "s4" TransactionStruct.literal_keys.

Definition tx_load_swapped : TransactionStruct.t :=
  TransactionStruct.mk "t4" "pub-c" 13
    [ [ ("timestamp", JNumber 7); ("command", JString "testLoad") ] ] "s4"
    TransactionStruct.literal_keys.

(** [tx_load] as an object that got its [sig] first. *)
Definition tx_load_sig_first : TransactionStruct.t :=
  TransactionStruct.mk "t4" "pub-c" 13 [test_load] "s4"
    [ "sig"; "ident"; "origin"; "timestamp"; "commands" ].

(** A quorum of 40, and [server_0] after a first proposal
    [(pub-b, m1, 2)] there. *)
Definition env_40 : Server.Env :=
  {| Server.quorum := 40 # 1;
     Server.network_length := 5;
     Server.network_p2p_interval_ms := 3000 |}.

Definition server_clash : Server.t :=
  Server.proposeModifyStake env_40 server_0 "pub-b" "m1" 2.

(** A heap of two command objects, and an array that refers to the first
    of them twice. *)
Definition heap_2 : gmap nat JSObject :=
  <[0%nat := test_load]> (<[1%nat := [("command", JString "x")]]> ∅).

Definition refs_aliased : list nat := [0%nat; 0%nat; 1%nat].

(** A tip at height 9, and the block built on it at clock reading 100. *)
Definition tip_9 : BlockStruct.t := with_time_height genesis 88355100900 9.

Definition block_10 : BlockStruct.t :=
  Block.get (Block.new (H := externals) tip_9 [tx_b1; tx_a] wallet 100).

(** A few credit operations in a row. *)
Definition credit_ops : list credit_op :=
  [ OpPropose "pub-b" "m1" 1; OpPropose "pub-b" "m2" 1; OpInc "pub-a";
    OpPropose "pub-a" "m3" 1; OpPropose "pub-b" "m1" 1 ].

End Sample.

(** * Properties *)

(** ** The sort *)

Section ArraySortFacts.
Context {A : Type} (comparefn : A -> A -> Z) (le : A -> A -> Prop).
Hypothesis before_le : forall x y, (comparefn x y <? 0) = true -> le x y.
Hypothesis after_le : forall x y, (comparefn x y <? 0) = false -> le y x.
Hypothesis le_trans : forall x y z, le x y -> le y z -> le x z.

Lemma sort_insert_perm x l : Permutation (x :: l) (sort_insert comparefn x l).
Proof.
  induction l as [|y l IH]; simpl; [reflexivity|].
  destruct (comparefn x y <? 0); [reflexivity|].
  rewrite <- IH. apply perm_swap.
Qed.

Lemma sort_fold_perm l : forall sorted,
  Permutation (sorted ++ l)
    (fold_left (fun sorted x => sort_insert comparefn x sorted) l sorted).
Proof.
  induction l as [|x l IH]; intros sorted; simpl.
  - now rewrite app_nil_r.
  - rewrite <- IH. rewrite <- sort_insert_perm.
    symmetry. apply Permutation_middle.
Qed.

Lemma Array_sort_perm l : Permutation l (Array_sort comparefn l).
Proof. exact (sort_fold_perm l []). Qed.

Lemma sort_insert_sorted x l :
  StronglySorted le l -> StronglySorted le (sort_insert comparefn x l).
Proof.
  induction 1 as [|y l Hl IH Hy]; simpl.
  - repeat constructor.
  - destruct (comparefn x y <? 0) eqn:Hc.
    + constructor; [now constructor|].
      constructor; [now apply before_le|].
      eapply Forall_impl; [exact Hy|].
      intros z Hz. eapply le_trans; [apply before_le; exact Hc | exact Hz].
    + constructor; [exact IH|].
      apply (Permutation_Forall (sort_insert_perm x l)).
      constructor; [now apply after_le | exact Hy].
Qed.

Lemma sort_fold_sorted l : forall sorted,
  StronglySorted le sorted ->
  StronglySorted le (fold_left (fun sorted x => sort_insert comparefn x sorted) l sorted).
Proof.
  induction l as [|x l IH]; intros sorted Hs; simpl; [exact Hs|].
  apply IH. now apply sort_insert_sorted.
Qed.

Lemma Array_sort_sorted l : StronglySorted le (Array_sort comparefn l).
Proof. apply sort_fold_sorted. constructor. Qed.

End ArraySortFacts.

Lemma by_origin_before x y : (by_origin x y <? 0) = true -> origin_le x y.
Proof.
  unfold by_origin, origin_le, String.le, String.ltb, String.leb.
  rewrite (String.compare_antisym (TransactionStruct.origin x) (TransactionStruct.origin y)).
  destruct (String.compare (TransactionStruct.origin y) (TransactionStruct.origin x));
    simpl; intros Hc; try discriminate; exact I.
Qed.

Lemma by_origin_after x y : (by_origin x y <? 0) = false -> origin_le y x.
Proof.
  unfold by_origin, origin_le, String.le, String.ltb, String.leb.
  destruct (String.compare (TransactionStruct.origin y) (TransactionStruct.origin x));
    simpl; intros Hc; try discriminate; exact I.
Qed.

Lemma origin_le_trans x y z : origin_le x y -> origin_le y z -> origin_le x z.
Proof. unfold origin_le. intros Hxy Hyz. etrans; eassumption. Qed.

Lemma sorted_by_origin tx : StronglySorted origin_le (Array_sort by_origin tx).
Proof.
  apply Array_sort_sorted;
    [exact by_origin_before | exact by_origin_after | exact origin_le_trans].
Qed.

(** ** Blocks *)

Section BlockFacts.
Context `{Externals}.

Lemma hash_input_text p v t h tx tx' :
  hash_input p v t h tx = hash_input p v t h tx' ->
  JSON_stringify (tx_json tx) = JSON_stringify (tx_json tx').
Proof.
  unfold hash_input. intros Heq.
  now do 4 apply (inj (String.app _)) in Heq.
Qed.

(** C1 (as amended): the hash of a block built by the constructor, and
    the value of [Block.blockHash] on any block, is the hash of
    [previousHash + version + timestamp + height + JSON.stringify(tx)]
    over the block's own fields, [tx] being the array the block carries,
    which in a built block is the transactions handed in, in ascending
    order of origin; so [blockHash] recomputes the hash of a built block.
    The text of [JSON.stringify] is not a canonical one: it follows the
    order in which each object holds its properties, and two arrays whose
    first transactions begin with different properties give different
    texts to hash, whatever their data. *)
Theorem block_hash_covers_fields :
  (forall previousBlock tx wallet now,
     let B := Block.get (Block.new previousBlock tx wallet now) in
     BlockStruct.hash B =
       ChainUtil_hash
         (hash_input (BlockStruct.previousHash B) (BlockStruct.version B)
            (BlockStruct.timestamp B) (BlockStruct.height B) (BlockStruct.tx B))
     /\ Permutation tx (BlockStruct.tx B)
     /\ StronglySorted origin_le (BlockStruct.tx B)
     /\ Block.blockHash B = BlockStruct.hash B)
  /\ (forall block,
        Block.blockHash block =
          ChainUtil_hash
            (hash_input (BlockStruct.previousHash block) (BlockStruct.version block)
               (BlockStruct.timestamp block) (BlockStruct.height block)
               (BlockStruct.tx block)))
  /\ (forall previousHash version timestamp height x x' rest rest',
        TransactionStruct.keys x = TransactionStruct.literal_keys ->
        TransactionStruct.keys x' = [ "sig"; "ident"; "origin"; "timestamp"; "commands" ] ->
        hash_input previousHash version timestamp height (x :: rest)
        <> hash_input previousHash version timestamp height (x' :: rest')).
Proof.
  split; [|split].
  - intros previousBlock tx wallet now B. subst B. simpl.
    split; [reflexivity|]. split; [apply Array_sort_perm|].
    split; [apply sorted_by_origin | reflexivity].
  - intros block. reflexivity.
  - intros previousHash version timestamp height x x' rest rest' Hk Hk' Heq.
    apply hash_input_text in Heq. revert Heq.
    unfold tx_json. cbn [List.map].
    unfold TransactionStruct.to_json, TransactionStruct.to_object.
    rewrite Hk, Hk'. simpl.
    destruct (List.map _ rest), (List.map _ rest'); simpl; discriminate.
Qed.

Lemma last_lookup_pred (chain : list BlockStruct.t) :
  last chain = chain !! (length chain - 1)%nat.
Proof.
  rewrite last_lookup. f_equal. lia.
Qed.

Lemma produced_height genesis chain :
  produced genesis chain ->
  forall (h : nat) B, chain !! h = Some B ->
    BlockStruct.height B = BlockStruct.height genesis + Z.of_nat h.
Proof.
  induction 1 as [|chain tip tx wallet now Hp IH Hlast]; intros h B Hl.
  - destruct h; [|discriminate]. injection Hl as <-. simpl. lia.
  - destruct (decide (h < length chain)%nat) as [Hlt|Hge].
    + rewrite lookup_app_l in Hl by exact Hlt. now apply IH.
    + assert (h = length chain) as ->.
      { apply lookup_lt_Some in Hl. rewrite length_app in Hl. simpl in Hl. lia. }
      rewrite list_lookup_middle in Hl by reflexivity.
      injection Hl as <-. simpl.
      rewrite last_lookup_pred in Hlast.
      pose proof (lookup_lt_Some _ _ _ Hlast) as Hlen.
      rewrite (IH _ _ Hlast). lia.
Qed.

(** C2: a block built on [previousBlock] has its height plus one and its
    hash as previous hash; hence in a chain grown by the constructor the
    block at every position [h > 0] points at the block at [h - 1] and is
    one higher, and its height is [h] above the height of the genesis
    block. *)
Theorem block_links_to_previous :
  (forall previousBlock tx wallet now,
     let B := Block.get (Block.new previousBlock tx wallet now) in
     BlockStruct.height B = BlockStruct.height previousBlock + 1
     /\ BlockStruct.previousHash B = BlockStruct.hash previousBlock)
  /\ (forall genesis chain (h : nat) B,
        produced genesis chain ->
        (0 < h)%nat ->
        chain !! h = Some B ->
        exists P, chain !! (h - 1)%nat = Some P
          /\ BlockStruct.previousHash B = BlockStruct.hash P
          /\ BlockStruct.height B = BlockStruct.height P + 1
          /\ BlockStruct.height B = BlockStruct.height genesis + Z.of_nat h).
Proof.
  split; [intros; split; reflexivity|].
  intros genesis chain h B Hp Hh Hl.
  assert (Hat : BlockStruct.height B = BlockStruct.height genesis + Z.of_nat h)
    by (eapply produced_height; eassumption).
  revert h B Hh Hl Hat.
  induction Hp as [|chain tip tx wallet now Hp IH Hlast]; intros h B Hh Hl Hat.
  - destruct h; [lia|]. discriminate.
  - destruct (decide (h < length chain)%nat) as [Hlt|Hge].
    + rewrite lookup_app_l in Hl by exact Hlt.
      destruct (IH h B Hh Hl Hat) as (P & HP & Hprev & Hheight & _).
      exists P. split; [|now repeat split].
      rewrite lookup_app_l by lia. exact HP.
    + assert (h = length chain) as ->.
      { apply lookup_lt_Some in Hl. rewrite length_app in Hl. simpl in Hl. lia. }
      rewrite list_lookup_middle in Hl by reflexivity.
      injection Hl as <-.
      exists tip. split; [|split; [reflexivity|split; [reflexivity|exact Hat]]].
      rewrite lookup_app_l by lia.
      rewrite <- last_lookup_pred. exact Hlast.
Qed.

(** C10: [get()] of a freshly built block carries no votes, whatever the
    constructor was given. *)
Theorem block_get_votes_empty previousBlock tx wallet now :
  BlockStruct.votes (Block.get (Block.new previousBlock tx wallet now)) = [].
Proof. reflexivity. Qed.

(** C7: when the wallet holds a key pair, the signature of a built block
    verifies under the block's origin over the block's hash; and
    [verifyBlock] answers [true] exactly when the signature of the block
    verifies under its origin over its hash. *)
Theorem block_signature_verifies :
  (forall previousBlock tx wallet now,
     Wallet.well_keyed wallet ->
     let B := Block.get (Block.new previousBlock tx wallet now) in
     ChainUtil_verifySignature (BlockStruct.origin B) (BlockStruct.sig B)
       (BlockStruct.hash B) = true
     /\ Block.verifyBlock B = true)
  /\ (forall block,
        Block.verifyBlock block = true <->
        ChainUtil_verifySignature (BlockStruct.origin block) (BlockStruct.sig block)
          (BlockStruct.hash block) = true).
Proof.
  split; [|intros block; reflexivity].
  intros previousBlock tx wallet now Hk B. subst B.
  unfold Block.verifyBlock. simpl. unfold Wallet.getPublicKey, Wallet.sign.
  split; apply sign_verifies; exact Hk.
Qed.

End BlockFacts.

(** ** Objects *)

Lemma take_prop_perm k o : forall p rest,
  take_prop k o = Some (p, rest) -> Permutation o (p :: rest).
Proof.
  induction o as [|q o IH]; intros p rest Ht; simpl in Ht; [discriminate|].
  destruct (String.eqb (fst q) k).
  - injection Ht as <- <-. reflexivity.
  - destruct (take_prop k o) as [[p' rest']|]; [|discriminate].
    injection Ht as <- <-.
    rewrite (IH p' rest' eq_refl). apply perm_swap.
Qed.

Lemma arrange_perm ks : forall o, Permutation o (arrange ks o).
Proof.
  induction ks as [|k ks IH]; intros o; simpl; [reflexivity|].
  destruct (take_prop k o) as [[p rest]|] eqn:Ht; [|apply IH].
  rewrite (take_prop_perm k o p rest Ht). constructor. apply IH.
Qed.

Lemma get_prop_absent k o : List.Forall (fun p => fst p <> k) o -> get_prop k o = None.
Proof.
  induction 1 as [|[k' v] o Hk _ IH]; simpl; [reflexivity|].
  simpl in Hk. destruct (String.eqb_spec k' k); [contradiction | exact IH].
Qed.

(** ** Transactions *)

Section TransactionFacts.
Context `{Externals}.

Lemma get_prop_signature_built (x : TransactionStruct.t) :
  get_prop "signature" (TransactionStruct.to_object x) = None.
Proof.
  apply get_prop_absent. unfold TransactionStruct.to_object.
  apply (Permutation_Forall (arrange_perm _ _)).
  unfold TransactionStruct.properties. repeat constructor; discriminate.
Qed.

Lemma ident_rule wallet commands ident now rnd :
  TransactionStruct.ident (Transaction.new wallet commands ident now rnd) =
    if Nat.ltb 0 (String.length ident) && Nat.leb (String.length ident) 32
    then ident else nanoid 8 rnd.
Proof. reflexivity. Qed.

Lemma ident_not_empty wallet commands ident now rnd :
  TransactionStruct.ident (Transaction.new wallet commands ident now rnd) <> "".
Proof.
  rewrite ident_rule.
  destruct (Nat.ltb 0 (String.length ident)) eqn:Hpos; simpl.
  - destruct (Nat.leb (String.length ident) 32).
    + apply Nat.ltb_lt in Hpos. intros ->. simpl in Hpos. lia.
    + intros He. pose proof (nanoid_length 8 rnd) as Hl. rewrite He in Hl. discriminate.
  - intros He. pose proof (nanoid_length 8 rnd) as Hl. rewrite He in Hl. discriminate.
Qed.

(** C4 (as amended): when the wallet holds a key pair, the signature of a
    built transaction verifies under its origin over
    [ident + timestamp + JSON.stringify(commands)].
    [TransactionPool.isValid] checks something else: the property
    [signature] of its argument against [JSON.stringify] of the property
    [transaction].  A transaction built by the constructor has neither
    property, and [isValid] answers [false] for it. *)
Theorem transaction_signature_verifies :
  (forall wallet commands ident now rnd,
     Wallet.well_keyed wallet ->
     let T := Transaction.new wallet commands ident now rnd in
     ChainUtil_verifySignature (TransactionStruct.origin T) (TransactionStruct.sig T)
       (tx_message T) = true)
  /\ (forall x : JSObject,
        TransactionPool.isValid x =
          verifySignature_values (get_prop "origin" x) (get_prop "signature" x)
            (JSON_stringify_opt (get_prop "transaction" x)))
  /\ (forall wallet commands ident now rnd,
        TransactionPool.isValid
          (TransactionStruct.to_object (Transaction.new wallet commands ident now rnd))
        = false).
Proof.
  split; [|split].
  - intros wallet commands ident now rnd Hk T. subst T.
    unfold tx_message. simpl. unfold Wallet.getPublicKey, Wallet.sign.
    apply sign_verifies. exact Hk.
  - reflexivity.
  - intros. unfold TransactionPool.isValid.
    rewrite get_prop_signature_built. reflexivity.
Qed.

(** C9: the constructor is total in the ident; an ident of 1 to 32 code
    units is kept as it is, whatever its characters, and an empty ident or
    one longer than 32 is replaced by the 8-character id of [nanoid]. *)
Theorem transaction_ident_rule wallet commands ident now rnd :
  let T := Transaction.new wallet commands ident now rnd in
  ((1 <= String.length ident <= 32)%nat -> TransactionStruct.ident T = ident)
  /\ ((String.length ident = 0 \/ 32 < String.length ident)%nat ->
      TransactionStruct.ident T = nanoid 8 rnd
      /\ String.length (TransactionStruct.ident T) = 8%nat
      /\ all_units url_safe (TransactionStruct.ident T) = true).
Proof.
  intros T. subst T. rewrite ident_rule. split.
  - intros [Hlo Hhi].
    assert (Nat.ltb 0 (String.length ident) = true) as -> by (apply Nat.ltb_lt; lia).
    assert (Nat.leb (String.length ident) 32 = true) as -> by (apply Nat.leb_le; lia).
    reflexivity.
  - intros Hout.
    assert (Nat.ltb 0 (String.length ident) && Nat.leb (String.length ident) 32 = false)
      as ->.
    { destruct Hout as [H0|H32].
      - rewrite H0. reflexivity.
      - apply andb_false_iff. right. apply Nat.leb_gt. exact H32. }
    split; [reflexivity|]. split; [apply nanoid_length | apply nanoid_url_safe].
Qed.

Lemma stack_answer this wallet commands ident now rnd :
  snd (BlockFactory.stack this wallet commands ident now rnd) =
    let T := Transaction.new wallet commands ident now rnd in
    if BlockFactory.pending this (TransactionStruct.origin T) (TransactionStruct.ident T)
    then None else Some (TransactionStruct.ident T).
Proof.
  unfold BlockFactory.stack. cbv zeta.
  destruct (BlockFactory.pending _ _ _); reflexivity.
Qed.

Lemma stackTx_answer this commands ident now rnd :
  snd (Server.stackTx this commands ident now rnd) =
    match snd (BlockFactory.stack (Server.blockFactory this) (Server.wallet this)
                 (assign_seq 1 commands) ident now rnd) with
    | None => None
    | Some i => if String.eqb i "" then None else Some i
    end.
Proof.
  unfold Server.stackTx. cbv zeta.
  destruct (snd (BlockFactory.stack _ _ _ _ _ _)) as [i|]; [|reflexivity].
  destruct (String.eqb i ""); reflexivity.
Qed.

(** C5: [stackTx] answers the ident of the transaction it stacks, which is
    the 8-character URL-safe id of [nanoid] when the supplied ident is
    empty, and answers the failure indicator when a transaction with the
    same origin and ident is already pending in the pool. *)
Theorem stackTx_returns_ident_or_failure this commands ident now rnd :
  let T := Transaction.new (Server.wallet this) (assign_seq 1 commands) ident now rnd in
  let busy :=
    BlockFactory.pending (Server.blockFactory this)
      (TransactionStruct.origin T) (TransactionStruct.ident T) in
  (busy = false ->
     snd (Server.stackTx this commands ident now rnd) = Some (TransactionStruct.ident T))
  /\ (busy = true -> snd (Server.stackTx this commands ident now rnd) = None)
  /\ (ident = "" ->
      TransactionStruct.ident T = nanoid 8 rnd
      /\ String.length (TransactionStruct.ident T) = 8%nat
      /\ all_units url_safe (TransactionStruct.ident T) = true).
Proof.
  intros T busy. rewrite stackTx_answer, stack_answer. cbv zeta.
  subst busy T. split; [|split].
  - intros Hfree. rewrite Hfree.
    destruct (String.eqb_spec
                (TransactionStruct.ident
                   (Transaction.new (Server.wallet this) (assign_seq 1 commands)
                      ident now rnd)) "") as [He|_]; [|reflexivity].
    exfalso. revert He. apply ident_not_empty.
  - intros Hbusy. rewrite Hbusy. reflexivity.
  - intros ->. rewrite ident_rule. simpl.
    split; [reflexivity|]. split; [apply nanoid_length | apply nanoid_url_safe].
Qed.

End TransactionFacts.

Section RearrangedBlock.
Context `{Externals}.

(** C3 (as amended): the [tx] array of a built block is a rearrangement of
    the transactions handed to the constructor, in ascending order of
    origin (code-unit order of the strings), and it has one transaction
    per origin when the transactions handed in have.  [verifyBlock] does
    not look at the order of [tx]: a block and the same block with its
    transactions rearranged get the same answer. *)
Theorem block_tx_sorted_rearrangement :
  (forall previousBlock tx wallet now,
     let B := Block.get (Block.new previousBlock tx wallet now) in
     Permutation tx (BlockStruct.tx B)
     /\ StronglySorted origin_le (BlockStruct.tx B)
     /\ (one_per_origin tx -> one_per_origin (BlockStruct.tx B)))
  /\ (forall block tx,
        Permutation (BlockStruct.tx block) tx ->
        Block.verifyBlock (with_tx block tx) = Block.verifyBlock block).
Proof.
  split; [|reflexivity].
  intros previousBlock tx wallet now B. subst B. simpl.
  split; [apply Array_sort_perm|]. split; [apply sorted_by_origin|].
  unfold one_per_origin. intros Hnd.
  eapply Permutation_NoDup; [|exact Hnd].
  apply Permutation_map, Array_sort_perm.
Qed.

End RearrangedBlock.

(** ** Stake credits *)

Section StakeCreditFacts.
Import Server.

Lemma Q_gtb_lt a b : Q_gtb a b = true <-> (b < a)%Q.
Proof.
  unfold Q_gtb. rewrite negb_true_iff. split.
  - intros Hle. apply Qnot_le_lt. intros Hc.
    apply Qle_bool_iff in Hc. congruence.
  - intros Hlt. destruct (Qle_bool a b) eqn:Hle; [|reflexivity].
    apply Qle_bool_iff in Hle. exfalso. revert Hle. now apply Qlt_not_le.
Qed.

Lemma admits_iff env m forPublicKey :
  admits env m forPublicKey = true <->
  (quorum env * - (1 # 2) < inject_Z (credit_of m forPublicKey - 1))%Q
  /\ (quorum env * - (1) < inject_Z (sum_credit m))%Q.
Proof.
  unfold admits. cbv zeta. rewrite andb_true_iff, !Q_gtb_lt. reflexivity.
Qed.

Lemma map_has_set k v m : map_has k (map_set k v m) = true.
Proof.
  induction m as [|[k' v'] m IH]; simpl.
  - now rewrite String.eqb_refl.
  - destruct (String.eqb k' k) eqn:He; simpl.
    + now rewrite String.eqb_refl.
    + rewrite He. exact IH.
Qed.

Lemma map_set_fresh k v m : map_has k m = false -> map_set k v m = m ++ [(k, v)].
Proof.
  induction m as [|[k' v'] m IH]; simpl; [reflexivity|].
  intros Hh. apply orb_false_iff in Hh as [He Hm].
  rewrite He. now rewrite IH.
Qed.

Lemma credit_of_insert (m : gmap string Z) k c : credit_of (<[k := c]> m) k = c.
Proof. unfold credit_of. now rewrite lookup_insert_eq. Qed.

Lemma credit_of_insert_ne (m : gmap string Z) k k' c :
  k <> k' -> credit_of (<[k := c]> m) k' = credit_of m k'.
Proof. intros Hne. unfold credit_of. now rewrite lookup_insert_ne. Qed.

Lemma propose_pending env this forPublicKey ident stake :
  map_has (modify_stake_key forPublicKey ident stake) (mapModifyStake this) = true ->
  proposeModifyStake env this forPublicKey ident stake = this.
Proof. intros Hp. unfold proposeModifyStake. cbv zeta. now rewrite Hp. Qed.

Lemma propose_admitted env this forPublicKey ident stake :
  map_has (modify_stake_key forPublicKey ident stake) (mapModifyStake this) = false ->
  admits env (mapStakeCredit this) forPublicKey = true ->
  mapModifyStake (proposeModifyStake env this forPublicKey ident stake) =
    map_set (modify_stake_key forPublicKey ident stake)
      (modify_stake_command forPublicKey ident stake) (mapModifyStake this)
  /\ mapStakeCredit (proposeModifyStake env this forPublicKey ident stake) =
       <[forPublicKey := credit_of (mapStakeCredit this) forPublicKey - 1]>
         (mapStakeCredit this).
Proof.
  intros Hp Ha. unfold proposeModifyStake. cbv zeta. rewrite Hp, Ha. split; reflexivity.
Qed.

Lemma propose_suppressed env this forPublicKey ident stake :
  map_has (modify_stake_key forPublicKey ident stake) (mapModifyStake this) = false ->
  admits env (mapStakeCredit this) forPublicKey = false ->
  mapModifyStake (proposeModifyStake env this forPublicKey ident stake) = mapModifyStake this
  /\ mapStakeCredit (proposeModifyStake env this forPublicKey ident stake) =
       mapStakeCredit this.
Proof.
  intros Hp Ha. unfold proposeModifyStake. cbv zeta. rewrite Hp, Ha. split; reflexivity.
Qed.

(** C6 (as amended): for a candidate whose joined key
    [[forPublicKey, ident, stake].join('')] is not in the modify-stake
    map, [proposeModifyStake] admits
    it exactly when the decremented credit of the target is above
    [quorum * -0.5] and the sum of the credit table, as it stands at the
    call, is above [quorum * -1]; an admitted candidate is appended to the
    modify-stake map and the credit of the target (and of no other key)
    goes down by 1; otherwise both tables stay as they are. *)
Theorem proposeModifyStake_admission env this forPublicKey ident stake :
  let k := modify_stake_key forPublicKey ident stake in
  let credit := credit_of (mapStakeCredit this) forPublicKey - 1 in
  let admitted :=
    (quorum env * - (1 # 2) < inject_Z credit)%Q
    /\ (quorum env * - (1) < inject_Z (sum_credit (mapStakeCredit this)))%Q in
  let this' := proposeModifyStake env this forPublicKey ident stake in
  map_has k (mapModifyStake this) = false ->
  (map_has k (mapModifyStake this') = true <-> admitted)
  /\ (admitted ->
      mapModifyStake this' =
        mapModifyStake this ++ [(k, modify_stake_command forPublicKey ident stake)]
      /\ mapStakeCredit this' = <[forPublicKey := credit]> (mapStakeCredit this)
      /\ credit_of (mapStakeCredit this') forPublicKey =
           credit_of (mapStakeCredit this) forPublicKey - 1
      /\ (forall other, other <> forPublicKey ->
            credit_of (mapStakeCredit this') other = credit_of (mapStakeCredit this) other))
  /\ (~ admitted ->
      mapModifyStake this' = mapModifyStake this
      /\ mapStakeCredit this' = mapStakeCredit this).
Proof.
  intros k credit admitted this' Hfree.
  assert (Hiff : admits env (mapStakeCredit this) forPublicKey = true <-> admitted)
    by apply admits_iff.
  destruct (admits env (mapStakeCredit this) forPublicKey) eqn:Ha.
  - destruct (propose_admitted env this forPublicKey ident stake Hfree Ha) as [Hm Hc].
    fold this' in Hm, Hc. fold k in Hm. fold credit in Hc.
    assert (Hadm : admitted) by now apply Hiff.
    split; [|split].
    + split; [intros _; exact Hadm|]. intros _. rewrite Hm. apply map_has_set.
    + intros _. split; [|split; [exact Hc|split]].
      * rewrite Hm. now apply map_set_fresh.
      * rewrite Hc. apply credit_of_insert.
      * intros other Hne. rewrite Hc. apply credit_of_insert_ne. congruence.
    + intros Hn. contradiction.
  - destruct (propose_suppressed env this forPublicKey ident stake Hfree Ha) as [Hm Hc].
    fold this' in Hm, Hc.
    assert (Hnot : ~ admitted) by (intros Hadm; apply Hiff in Hadm; discriminate).
    split; [|split].
    + rewrite Hm. fold k. rewrite Hfree. split; [discriminate | intros Hadm; contradiction].
    + intros Hadm. contradiction.
    + intros _. now split.
Qed.



End StakeCreditFacts.

(** ** The definitions at work on the sample instance *)

Example sample_message :
  tx_message Sample.tx_a = "t312[]".
Proof. reflexivity. Qed.

Example sample_seq :
  assign_seq 1 [Sample.test_load; [("seq", JNumber 9); ("command", JString "x")]] =
    [ [("command", JString "testLoad"); ("timestamp", JNumber 7); ("seq", JNumber 1)];
      [("seq", JNumber 2); ("command", JString "x")] ].
Proof. reflexivity. Qed.

Example sample_sorted :
  BlockStruct.tx Sample.block_1 = [Sample.tx_a; Sample.tx_b1].
Proof. reflexivity. Qed.

Example sample_key_clash :
  Server.modify_stake_key "pub-b" "m1" 2 = Server.modify_stake_key "pub-b" "m" 12.
Proof. reflexivity. Qed.

Example sample_credit_after :
  Server.credit_of (Server.mapStakeCredit Sample.server_1) "pub-b" = -1.
Proof. vm_compute. reflexivity. Qed.

Example sample_floor :
  let this := Server.proposeModifyStake Sample.env_4 Sample.server_1 "pub-b" "m2" 1 in
  Server.mapStakeCredit this = Server.mapStakeCredit Sample.server_1
  /\ Server.map_has (Server.modify_stake_key "pub-b" "m2" 1) (Server.mapModifyStake this)
     = false.
Proof. vm_compute. split; reflexivity. Qed.

Example sample_stack_twice :
  snd (Server.stackTx (H := Sample.externals) Sample.server_stacked [] "abc" 5 true) = None.
Proof. vm_compute. reflexivity. Qed.

(** ** The theorems applied to the sample instance *)

Lemma block_hash_covers_fields_witness :
  hash_input "g" 1 100 1 [Sample.tx_load] <> hash_input "g" 1 100 1 [Sample.tx_load_sig_first].
Proof.
  apply (proj2 (proj2 (block_hash_covers_fields (H := Sample.externals)))
           "g" 1 100 1 Sample.tx_load Sample.tx_load_sig_first [] []);
    reflexivity.
Defined.

Lemma block_links_to_previous_witness :
  exists P, [Sample.genesis; Sample.block_1] !! 0%nat = Some P
    /\ BlockStruct.previousHash Sample.block_1 = BlockStruct.hash P
    /\ BlockStruct.height Sample.block_1 = BlockStruct.height P + 1
    /\ BlockStruct.height Sample.block_1 = BlockStruct.height Sample.genesis + 1.
Proof.
  apply (proj2 (block_links_to_previous (H := Sample.externals))
           Sample.genesis [Sample.genesis; Sample.block_1] 1%nat Sample.block_1).
  - exact (produced_next (H := Sample.externals) Sample.genesis [Sample.genesis]
             Sample.genesis [Sample.tx_b1; Sample.tx_a] Sample.wallet 100
             (produced_genesis Sample.genesis) eq_refl).
  - lia.
  - reflexivity.
Defined.

Lemma block_signature_verifies_witness :
  Block.verifyBlock (H := Sample.externals) Sample.block_1 = true.
Proof.
  apply (proj1 (block_signature_verifies (H := Sample.externals))
           Sample.genesis [Sample.tx_b1; Sample.tx_a] Sample.wallet 100).
  reflexivity.
Defined.

Lemma block_tx_sorted_rearrangement_witness :
  one_per_origin (BlockStruct.tx Sample.block_1)
  /\ Block.verifyBlock (H := Sample.externals) Sample.block_out_of_order
     = Block.verifyBlock (H := Sample.externals) Sample.block_1.
Proof.
  split.
  - apply (proj1 (block_tx_sorted_rearrangement (H := Sample.externals))
             Sample.genesis [Sample.tx_b1; Sample.tx_a] Sample.wallet 100).
    unfold one_per_origin. simpl.
    constructor.
    + intros [Heq|[]]. discriminate.
    + constructor; [intros [] | constructor].
  - apply (proj2 (block_tx_sorted_rearrangement (H := Sample.externals))
             Sample.block_1 [Sample.tx_b1; Sample.tx_a]).
    simpl. apply perm_swap.
Defined.

Lemma transaction_signature_verifies_witness :
  Sample.verify (TransactionStruct.origin Sample.transaction_1)
    (TransactionStruct.sig Sample.transaction_1) (tx_message Sample.transaction_1) = true.
Proof.
  apply (proj1 (transaction_signature_verifies (H := Sample.externals))
           Sample.wallet [Sample.test_load] "abc" 1700000000000 true).
  reflexivity.
Defined.

Lemma transaction_ident_rule_witness :
  TransactionStruct.ident Sample.transaction_1 = "abc"
  /\ String.length
       (TransactionStruct.ident
          (Transaction.new (H := Sample.externals) Sample.wallet [] "" 5 false)) = 8%nat.
Proof.
  split.
  - apply (proj1 (transaction_ident_rule (H := Sample.externals)
                    Sample.wallet [Sample.test_load] "abc" 1700000000000 true)).
    simpl. lia.
  - apply (proj2 (transaction_ident_rule (H := Sample.externals)
                    Sample.wallet [] "" 5 false)).
    left. reflexivity.
Defined.

Lemma stackTx_returns_ident_or_failure_witness :
  snd (Server.stackTx (H := Sample.externals) Sample.server_0 [Sample.test_load] "abc"
         1700000000000 true) = Some "abc"
  /\ snd (Server.stackTx (H := Sample.externals) Sample.server_stacked [] "abc" 5 true)
     = None.
Proof.
  split.
  - apply (proj1 (stackTx_returns_ident_or_failure (H := Sample.externals)
                    Sample.server_0 [Sample.test_load] "abc" 1700000000000 true)).
    reflexivity.
  - apply (proj1 (proj2 (stackTx_returns_ident_or_failure (H := Sample.externals)
                           Sample.server_stacked [] "abc" 5 true))).
    vm_compute. reflexivity.
Defined.

Lemma proposeModifyStake_admission_witness :
  Server.mapStakeCredit Sample.server_1 = <["pub-b" := -1]> ∅.
Proof.
  apply (proj1 (proj2 (proposeModifyStake_admission Sample.env_4 Sample.server_0
                         "pub-b" "m1" 1 eq_refl))).
  split; vm_compute; reflexivity.
Defined.


(** ** Where the code departs from the specification *)

(** C3 fails on the code.  Handed two transactions of one origin, the
    constructor keeps both, the later one in front, so the order is not
    the stable one, and the block it builds passes [verifyBlock]; and a
    block whose transactions are out of order passes [verifyBlock] as
    well. *)
Lemma block_tx_not_one_per_origin_nor_sorted :
  Block.verifyBlock (H := Sample.externals) Sample.block_same_origin = true
  /\ BlockStruct.tx Sample.block_same_origin = [Sample.tx_b2; Sample.tx_b1]
  /\ ~ one_per_origin (BlockStruct.tx Sample.block_same_origin)
  /\ Block.verifyBlock (H := Sample.externals) Sample.block_out_of_order = true
  /\ ~ Sorted origin_le (BlockStruct.tx Sample.block_out_of_order).
Proof.
  split; [reflexivity|]. split; [reflexivity|]. split; [|split; [reflexivity|]].
  - unfold one_per_origin. simpl. intros Hnd.
    apply List.NoDup_cons_iff in Hnd as [Hin _]. apply Hin. now left.
  - simpl. intros Hs. inversion Hs as [|a l _ Hhd]; subst.
    inversion Hhd as [|b l' Hle]; subst. vm_compute in Hle. exact Hle.
Qed.

(** C1 fails on the code.  Two transactions with the same data, whose
    one command holds its properties in different orders, give blocks
    with different hashes; so the hash is not that of any text which,
    like a canonical encoding, is the same for the same data. *)
Lemma block_hash_follows_property_order :
  same_data [Sample.tx_load] [Sample.tx_load_swapped]
  /\ Block.hash (Block.new (H := Sample.externals) Sample.genesis [Sample.tx_load]
                  Sample.wallet 100)
     <> Block.hash (Block.new (H := Sample.externals) Sample.genesis
                      [Sample.tx_load_swapped] Sample.wallet 100)
  /\ ~ (exists canonical : list TransactionStruct.t -> string,
          (forall tx tx', same_data tx tx' -> canonical tx = canonical tx')
          /\ (forall previousBlock tx wallet now,
                let B := Block.new (H := Sample.externals) previousBlock tx wallet now in
                Block.hash B =
                  Sample.hash
                    (Block.previousHash B +:+ pretty (Block.version B)
                       +:+ pretty (Block.timestamp B) +:+ pretty (Block.height B)
                       +:+ canonical (Block.tx B)))).
Proof.
  assert (Hsame : same_data [Sample.tx_load] [Sample.tx_load_swapped]).
  { repeat constructor. }
  assert (Hne : Block.hash (Block.new (H := Sample.externals) Sample.genesis
                              [Sample.tx_load] Sample.wallet 100)
                <> Block.hash (Block.new (H := Sample.externals) Sample.genesis
                                 [Sample.tx_load_swapped] Sample.wallet 100)).
  { vm_compute. discriminate. }
  split; [exact Hsame|]. split; [exact Hne|].
  intros (canonical & Hcan & Hhash). apply Hne.
  rewrite (Hhash Sample.genesis [Sample.tx_load] Sample.wallet 100).
  rewrite (Hhash Sample.genesis [Sample.tx_load_swapped] Sample.wallet 100).
  change (Block.tx (Block.new (H := Sample.externals) Sample.genesis [Sample.tx_load]
                      Sample.wallet 100)) with [Sample.tx_load].
  change (Block.tx (Block.new (H := Sample.externals) Sample.genesis
                      [Sample.tx_load_swapped] Sample.wallet 100))
    with [Sample.tx_load_swapped].
  rewrite (Hcan _ _ Hsame). reflexivity.
Qed.

(** C6 fails on the code.  With the candidate [(pub-b, m1, 2)] pending,
    the candidate [(pub-b, m, 12)] is not pending and both floors hold,
    yet the call returns without admitting it: the two candidates have
    the same joined key. *)
Lemma clashing_candidate_not_admitted :
  candidate_pending (Server.mapModifyStake Sample.server_clash) "pub-b" "m" 12 = false
  /\ (Server.quorum Sample.env_40 * - (1 # 2)
      < inject_Z (Server.credit_of (Server.mapStakeCredit Sample.server_clash) "pub-b" - 1))%Q
  /\ (Server.quorum Sample.env_40 * - (1)
      < inject_Z (Server.sum_credit (Server.mapStakeCredit Sample.server_clash)))%Q
  /\ Server.proposeModifyStake Sample.env_40 Sample.server_clash "pub-b" "m" 12
     = Sample.server_clash
  /\ candidate_pending
       (Server.mapModifyStake
          (Server.proposeModifyStake Sample.env_40 Sample.server_clash "pub-b" "m" 12))
       "pub-b" "m" 12 = false.
Proof.
  split; [vm_compute; reflexivity|].
  split; [vm_compute; reflexivity|].
  split; [vm_compute; reflexivity|].
  split; vm_compute; reflexivity.
Qed.

(** C4 fails on the code.  The signature of a transaction built by the
    constructor verifies over [ident + timestamp + JSON.stringify(commands)],
    and [isValid] answers [false] for that transaction. *)
Lemma built_transaction_fails_isValid :
  ~ (TransactionPool.isValid (H := Sample.externals)
       (TransactionStruct.to_object Sample.transaction_1) = true
     <-> ChainUtil_verifySignature (Externals := Sample.externals)
           (TransactionStruct.origin Sample.transaction_1)
           (TransactionStruct.sig Sample.transaction_1)
           (tx_message Sample.transaction_1) = true).
Proof.
  intros [_ Hback].
  assert (Hv : TransactionPool.isValid (H := Sample.externals)
                 (TransactionStruct.to_object Sample.transaction_1) = true)
    by (apply Hback; reflexivity).
  vm_compute in Hv. discriminate.
Qed.

(** * Further properties of the code *)

(** ** Objects and the numbering of commands *)

Lemma get_prop_set_eq k v o : get_prop k (set_prop k v o) = Some v.
Proof.
  induction o as [|[k' v'] o IH]; simpl.
  - now rewrite String.eqb_refl.
  - destruct (String.eqb k' k) eqn:He; simpl.
    + now rewrite String.eqb_refl.
    + now rewrite He.
Qed.

Lemma get_prop_set_ne k k' v o :
  k <> k' -> get_prop k' (set_prop k v o) = get_prop k' o.
Proof.
  intros Hne. induction o as [|[k0 v0] o IH]; simpl.
  - destruct (String.eqb_spec k k'); [contradiction | reflexivity].
  - destruct (String.eqb_spec k0 k) as [->|Hk0]; simpl.
    + destruct (String.eqb_spec k k'); [contradiction | reflexivity].
    + destruct (String.eqb_spec k0 k'); [reflexivity | exact IH].
Qed.

Lemma set_prop_again k v v' o : set_prop k v (set_prop k v' o) = set_prop k v o.
Proof.
  induction o as [|[k0 v0] o IH]; simpl.
  - now rewrite String.eqb_refl.
  - destruct (String.eqb k0 k) eqn:He; simpl.
    + now rewrite String.eqb_refl.
    + now rewrite He, IH.
Qed.

Lemma assign_seq_length s commands : length (assign_seq s commands) = length commands.
Proof.
  revert s. induction commands as [|c commands IH]; intros s; simpl;
    [reflexivity | now rewrite IH].
Qed.

Lemma assign_seq_lookup s commands (i : nat) c :
  commands !! i = Some c ->
  assign_seq s commands !! i = Some (set_prop "seq" (JNumber (s + Z.of_nat i)) c).
Proof.
  revert s i. induction commands as [|c0 commands IH]; intros s i Hl; [discriminate|].
  destruct i as [|i]; simpl in *.
  - injection Hl as ->. now rewrite Z.add_0_r.
  - rewrite (IH (s + 1) i Hl). do 3 f_equal. lia.
Qed.

Lemma number_in_place_other s refs : forall (heap : gmap nat JSObject) r,
  r ∉ refs -> number_in_place s refs heap !! r = heap !! r.
Proof.
  revert s. induction refs as [|r0 refs IH]; intros s heap r Hr; simpl; [reflexivity|].
  apply not_elem_of_cons in Hr as [Hne Hr].
  rewrite IH by exact Hr. now rewrite lookup_alter_ne.
Qed.

Lemma number_in_place_last refs : forall s (heap : gmap nat JSObject) (i : nat) r c,
  refs !! i = Some r ->
  (forall j : nat, (i < j)%nat -> refs !! j <> Some r) ->
  heap !! r = Some c ->
  number_in_place s refs heap !! r = Some (set_prop "seq" (JNumber (s + Z.of_nat i)) c).
Proof.
  induction refs as [|r0 refs IH]; intros s heap i r c Hi Hlast Hc; [discriminate|].
  destruct i as [|i]; simpl in *.
  - injection Hi as ->.
    rewrite number_in_place_other.
    + rewrite lookup_alter_eq, Hc. simpl. now rewrite Z.add_0_r.
    + intros Hin. apply list_elem_of_lookup in Hin as [j Hj].
      apply (Hlast (S j)); [lia | exact Hj].
  - assert (Hlast' : forall j : nat, (i < j)%nat -> refs !! j <> Some r)
      by (intros j Hj; apply (Hlast (S j)); lia).
    destruct (decide (r0 = r)) as [->|Hne].
    + rewrite (IH (s + 1) _ i r (set_prop "seq" (JNumber s) c) Hi Hlast').
      * rewrite set_prop_again. do 3 f_equal. lia.
      * now rewrite lookup_alter_eq, Hc.
    + rewrite (IH (s + 1) _ i r c Hi Hlast').
      * do 3 f_equal. lia.
      * now rewrite lookup_alter_ne.
Qed.

Lemma Forall2_impl_elem {B C : Type} (P Q : B -> C -> Prop) (l : list B) (k : list C) :
  Forall2 P l k -> (forall x y, x ∈ l -> P x y -> Q x y) -> Forall2 Q l k.
Proof.
  induction 1 as [|x y l k Hxy _ IH]; intros Himp; constructor.
  - apply Himp; [left | exact Hxy].
  - apply IH. intros x' y' Hin. apply Himp. now right.
Qed.

Lemma number_in_place_distinct refs : forall s (heap : gmap nat JSObject) cs,
  NoDup refs ->
  Forall2 (fun r c => heap !! r = Some c) refs cs ->
  Forall2 (fun r c => number_in_place s refs heap !! r = Some c) refs (assign_seq s cs).
Proof.
  induction refs as [|r refs IH]; intros s heap cs Hnd Hall.
  - apply Forall2_nil_inv_l in Hall as ->. constructor.
  - apply Forall2_cons_inv_l in Hall as (c & cs' & Hc & Hall & ->).
    apply NoDup_cons in Hnd as [Hr Hnd]. simpl. constructor.
    + rewrite number_in_place_other by exact Hr.
      now rewrite lookup_alter_eq, Hc.
    + apply IH; [exact Hnd|].
      eapply Forall2_impl_elem; [exact Hall|].
      intros r' c' Hin Hc'. rewrite lookup_alter_ne; [exact Hc'|].
      intros ->. contradiction.
Qed.

(** X1: [stackTx] numbers the commands in place, 1, 2, 3, ... in array
    order.  After it, an object of the array carries as [seq] one more
    than the last index it stands at, with its other properties as they
    were, and objects outside the array are untouched; when the objects
    of the array are pairwise different, the array reads as the commands
    numbered 1, 2, 3, ... ([assign_seq]). *)
Theorem stackTx_numbers_in_place refs (heap : gmap nat JSObject) :
  (forall (i : nat) r c,
     refs !! i = Some r ->
     (forall j : nat, (i < j)%nat -> refs !! j <> Some r) ->
     heap !! r = Some c ->
     exists c', number_in_place 1 refs heap !! r = Some c'
       /\ get_prop "seq" c' = Some (JNumber (Z.of_nat i + 1))
       /\ (forall k, k <> "seq" -> get_prop k c' = get_prop k c))
  /\ (forall r, r ∉ refs -> number_in_place 1 refs heap !! r = heap !! r)
  /\ (forall cs,
        NoDup refs ->
        Forall2 (fun r c => heap !! r = Some c) refs cs ->
        Forall2 (fun r c => number_in_place 1 refs heap !! r = Some c) refs
          (assign_seq 1 cs)).
Proof.
  split; [|split].
  - intros i r c Hi Hlast Hc.
    exists (set_prop "seq" (JNumber (1 + Z.of_nat i)) c). split; [|split].
    + now apply number_in_place_last.
    + rewrite get_prop_set_eq. do 2 f_equal. lia.
    + intros k Hk. apply get_prop_set_ne. congruence.
  - intros r Hr. now apply number_in_place_other.
  - intros cs. apply number_in_place_distinct.
Qed.

(** X2: numbering overwrites any earlier numbering: commands that went
    through [stackTx]'s numbering from [s'] and are numbered again from
    [s] are the commands numbered from [s]; numbering twice from 1 is
    numbering once. *)
Theorem stackTx_renumbering s s' commands :
  assign_seq s (assign_seq s' commands) = assign_seq s commands.
Proof.
  revert s s'. induction commands as [|c commands IH]; intros s s'; simpl;
    [reflexivity|].
  now rewrite set_prop_again, IH.
Qed.

(** ** The transaction pool *)

Lemma add_all_transactions this xs :
  TransactionPool.transactions (add_all this xs) = TransactionPool.transactions this ++ xs.
Proof.
  unfold add_all. revert this. induction xs as [|x xs IH]; intros this; simpl.
  - now rewrite app_nil_r.
  - rewrite IH. simpl. now rewrite <- app_assoc.
Qed.

(** X3: the pool keeps every object it is handed, in the order of the
    calls and with repetitions: after [add] of each object of [xs] the
    array is the old array followed by [xs]; every [add] answers [false];
    [clear] leaves the empty array. *)
Theorem pool_keeps_all_in_order this xs :
  TransactionPool.transactions (add_all this xs) = TransactionPool.transactions this ++ xs
  /\ length (TransactionPool.transactions (add_all this xs)) =
       (length (TransactionPool.transactions this) + length xs)%nat
  /\ (forall x, snd (TransactionPool.add (add_all this xs) x) = false)
  /\ TransactionPool.transactions (TransactionPool.clear (add_all this xs)) = [].
Proof.
  rewrite add_all_transactions. repeat split. apply length_app.
Qed.

Section PoolValidity.
Context `{Externals}.

(** X4: [isValid] accepts an object whose [signature] is a signature, by
    the secret key belonging to [origin], over [JSON.stringify] of its
    [transaction]. *)
Theorem isValid_accepts_signed_transaction (x : JSObject) pk sk payload :
  crypto_sign_keypair pk sk = true ->
  get_prop "origin" x = Some (JString pk) ->
  get_prop "transaction" x = Some payload ->
  get_prop "signature" x =
    Some (JString (crypto_sign_detached (JSON_stringify payload) sk)) ->
  TransactionPool.isValid x = true.
Proof.
  intros Hk Ho Ht Hs. unfold TransactionPool.isValid.
  rewrite Ho, Ht, Hs. simpl. now apply sign_verifies.
Qed.

(** X5: the ident of a built transaction is never empty and never longer
    than [MAX_LENGTH_IDENT], for every ident handed to the constructor. *)
Theorem transaction_ident_bounds wallet commands ident now rnd :
  (1 <= String.length
          (TransactionStruct.ident (Transaction.new wallet commands ident now rnd))
     <= Transaction.MAX_LENGTH_IDENT)%nat.
Proof.
  rewrite ident_rule. unfold Transaction.MAX_LENGTH_IDENT.
  destruct (Nat.ltb 0 (String.length ident)) eqn:Hlo; simpl.
  - destruct (Nat.leb (String.length ident) 32) eqn:Hhi.
    + apply Nat.ltb_lt in Hlo. apply Nat.leb_le in Hhi. lia.
    + rewrite nanoid_length. lia.
  - rewrite nanoid_length. lia.
Qed.

End PoolValidity.

(** ** The credit table *)

Section CreditTableFacts.
Import Server.

Lemma sum_credit_insert_fresh (m : gmap string Z) k c :
  m !! k = None -> sum_credit (<[k := c]> m) = sum_credit m + c.
Proof.
  intros Hk. unfold sum_credit.
  rewrite map_fold_insert_L; [reflexivity | | exact Hk].
  intros. lia.
Qed.

Lemma sum_credit_insert (m : gmap string Z) k c :
  sum_credit (<[k := c]> m) = sum_credit m - credit_of m k + c.
Proof.
  unfold credit_of. destruct (m !! k) as [x|] eqn:Hk; simpl.
  - rewrite <- (insert_delete_eq m k c).
    rewrite sum_credit_insert_fresh by apply lookup_delete_eq.
    unfold sum_credit.
    rewrite (map_fold_delete_L _ _ k x m); [lia | | exact Hk].
    intros. lia.
  - rewrite sum_credit_insert_fresh by exact Hk. lia.
Qed.

Lemma credit_of_inc this publicKey k :
  credit_of (mapStakeCredit (incStakeCredit this publicKey)) k =
    if decide (k = publicKey)
    then credit_of (mapStakeCredit this) k + 1
    else credit_of (mapStakeCredit this) k.
Proof.
  unfold incStakeCredit. simpl. destruct (decide (k = publicKey)) as [->|Hne].
  - apply credit_of_insert.
  - apply credit_of_insert_ne. congruence.
Qed.

Lemma inc_sum this publicKey :
  sum_credit (mapStakeCredit (incStakeCredit this publicKey)) =
    sum_credit (mapStakeCredit this) + 1.
Proof. unfold incStakeCredit. simpl. rewrite sum_credit_insert. lia. Qed.

Lemma propose_sum env this forPublicKey ident stake :
  sum_credit (mapStakeCredit (proposeModifyStake env this forPublicKey ident stake)) =
    if negb (map_has (modify_stake_key forPublicKey ident stake) (mapModifyStake this))
       && admits env (mapStakeCredit this) forPublicKey
    then sum_credit (mapStakeCredit this) - 1
    else sum_credit (mapStakeCredit this).
Proof.
  destruct (map_has (modify_stake_key forPublicKey ident stake) (mapModifyStake this))
    eqn:Hp; simpl.
  - now rewrite propose_pending.
  - destruct (admits env (mapStakeCredit this) forPublicKey) eqn:Ha.
    + destruct (propose_admitted env this forPublicKey ident stake Hp Ha) as [_ ->].
      rewrite sum_credit_insert. lia.
    + destruct (propose_suppressed env this forPublicKey ident stake Hp Ha) as [_ ->].
      reflexivity.
Qed.

(** X6: [incStakeCredit] raises the credit of its key by 1, a key without
    an entry counting as 0, leaves every other credit and the modify-stake
    map as they are, and raises the sum of the table by 1. *)
Theorem incStakeCredit_adds_one this publicKey :
  let this' := incStakeCredit this publicKey in
  credit_of (mapStakeCredit this') publicKey = credit_of (mapStakeCredit this) publicKey + 1
  /\ (forall other, other <> publicKey ->
        credit_of (mapStakeCredit this') other = credit_of (mapStakeCredit this) other)
  /\ sum_credit (mapStakeCredit this') = sum_credit (mapStakeCredit this) + 1
  /\ mapModifyStake this' = mapModifyStake this.
Proof.
  cbv zeta. split; [|split; [|split]].
  - rewrite credit_of_inc. now rewrite decide_True.
  - intros other Hne. rewrite credit_of_inc. now rewrite decide_False.
  - apply inc_sum.
  - reflexivity.
Qed.

(** X7: an admitted candidate lowers the sum of the credit table by
    exactly 1; a pending or suppressed one leaves the sum as it is. *)
Theorem proposeModifyStake_sum env this forPublicKey ident stake :
  let this' := proposeModifyStake env this forPublicKey ident stake in
  sum_credit (mapStakeCredit this') =
    if negb (map_has (modify_stake_key forPublicKey ident stake) (mapModifyStake this))
       && admits env (mapStakeCredit this) forPublicKey
    then sum_credit (mapStakeCredit this) - 1
    else sum_credit (mapStakeCredit this).
Proof. cbv zeta. apply propose_sum. Qed.

(** X8: [incStakeCredit] undoes an admitted proposal: after a candidate
    against [forPublicKey] was admitted and the credit of [forPublicKey]
    was raised again, every key has the credit it had before, and so has
    the sum. *)
Theorem incStakeCredit_restores env this forPublicKey ident stake :
  map_has (modify_stake_key forPublicKey ident stake) (mapModifyStake this) = false ->
  admits env (mapStakeCredit this) forPublicKey = true ->
  let this' :=
    incStakeCredit (proposeModifyStake env this forPublicKey ident stake) forPublicKey in
  (forall k, credit_of (mapStakeCredit this') k = credit_of (mapStakeCredit this) k)
  /\ sum_credit (mapStakeCredit this') = sum_credit (mapStakeCredit this).
Proof.
  intros Hp Ha. cbv zeta.
  destruct (propose_admitted env this forPublicKey ident stake Hp Ha) as [_ Hc].
  split.
  - intros k. rewrite credit_of_inc, Hc. destruct (decide (k = forPublicKey)) as [->|Hne].
    + rewrite credit_of_insert. lia.
    + apply credit_of_insert_ne. congruence.
  - rewrite inc_sum, propose_sum, Hp, Ha. simpl. lia.
Qed.

Lemma string_app_assoc (a b c : string) : (a +:+ b) +:+ c = a +:+ (b +:+ c).
Proof.
  induction a as [|x a IH]; [reflexivity|].
  change (String x ((a +:+ b) +:+ c) = String x (a +:+ (b +:+ c))).
  f_equal. exact IH.
Qed.

(** X9: the key of a candidate does not tell where the public key ends
    and the ident begins: while the candidate against [forPublicKey +:+ a]
    with ident [ident] is pending, a proposal against [forPublicKey] with
    ident [a +:+ ident] and the same stake is taken for pending too and
    changes nothing. *)
Theorem proposeModifyStake_key_overlap env this forPublicKey a ident stake :
  map_has (modify_stake_key (forPublicKey +:+ a) ident stake) (mapModifyStake this) = true ->
  proposeModifyStake env this forPublicKey (a +:+ ident) stake = this.
Proof.
  intros Hp. apply propose_pending.
  unfold modify_stake_key in *.
  rewrite string_app_assoc in Hp. rewrite string_app_assoc. exact Hp.
Qed.

Lemma inject_Z_lt_succ (q : Q) (c : Z) : (q < inject_Z c)%Q -> (q < inject_Z (c + 1))%Q.
Proof.
  intros Hq. eapply Qlt_le_trans; [exact Hq|].
  rewrite <- Zle_Qle. lia.
Qed.

Lemma run_op_floor env this op :
  above_floor env (mapStakeCredit this) ->
  above_floor env (mapStakeCredit (run_op env this op)).
Proof.
  intros Hfl. destruct op as [forPublicKey ident stake|publicKey]; cbn [run_op].
  - destruct (map_has (modify_stake_key forPublicKey ident stake) (mapModifyStake this))
      eqn:Hp.
    + now rewrite propose_pending.
    + destruct (admits env (mapStakeCredit this) forPublicKey) eqn:Ha.
      * destruct (propose_admitted env this forPublicKey ident stake Hp Ha) as [_ ->].
        apply admits_iff in Ha as [Hc _].
        intros k. destruct (decide (forPublicKey = k)) as [<-|Hne].
        -- rewrite credit_of_insert. exact Hc.
        -- rewrite credit_of_insert_ne by exact Hne. apply Hfl.
      * destruct (propose_suppressed env this forPublicKey ident stake Hp Ha) as [_ ->].
        exact Hfl.
  - intros k. rewrite credit_of_inc. destruct (decide (k = publicKey)).
    + apply inject_Z_lt_succ, Hfl.
    + apply Hfl.
Qed.

Lemma run_op_global_floor env this op :
  above_global_floor env (mapStakeCredit this) ->
  above_global_floor env (mapStakeCredit (run_op env this op)).
Proof.
  unfold above_global_floor. intros Hfl.
  destruct op as [forPublicKey ident stake|publicKey]; cbn [run_op].
  - rewrite propose_sum.
    destruct (map_has (modify_stake_key forPublicKey ident stake) (mapModifyStake this));
      simpl; [exact Hfl|].
    destruct (admits env (mapStakeCredit this) forPublicKey) eqn:Ha; [|exact Hfl].
    apply admits_iff in Ha as [_ Hsum].
    unfold Z.sub. rewrite inject_Z_plus.
    unfold Qminus. apply Qplus_lt_le_compat; [exact Hsum|]. apply Qle_refl.
  - rewrite inc_sum. now apply inject_Z_lt_succ.
Qed.

(** X10: proposals never push a credit to the floor.  With the quorum
    fixed, if every credit is above [quorum * -0.5] and the sum is above
    [quorum * -1 - 1], both still hold after any sequence of
    [proposeModifyStake] and [incStakeCredit] calls. *)
Theorem credit_floors_kept env ops this :
  above_floor env (mapStakeCredit this) ->
  above_global_floor env (mapStakeCredit this) ->
  above_floor env (mapStakeCredit (run_ops env ops this))
  /\ above_global_floor env (mapStakeCredit (run_ops env ops this)).
Proof.
  unfold run_ops. revert this. induction ops as [|op ops IH]; intros this Hf Hg; simpl.
  - now split.
  - apply IH; [now apply run_op_floor | now apply run_op_global_floor].
Qed.

End CreditTableFacts.

(** ** Decimal numbers next to each other *)

Lemma pretty_N_go_acc (x : N) (s : string) : pretty_N_go x s = pretty_N_go x "" +:+ s.
Proof.
  revert s. induction (N.lt_wf_0 x) as [x _ IH]; intros s.
  destruct (decide (x = 0)%N) as [->|Hx]; [reflexivity|].
  assert (0 < x)%N as Hpos by lia.
  rewrite !(pretty_N_go_step x) by exact Hpos.
  assert (Hlt : (x `div` 10 < x)%N) by (apply N.div_lt; lia).
  rewrite (IH _ Hlt (String (pretty_N_char (x `mod` 10)) s)).
  rewrite (IH _ Hlt (String (pretty_N_char (x `mod` 10)) "")).
  now rewrite string_app_assoc.
Qed.

Lemma pretty_N_snoc (t d : N) :
  (0 < t)%N -> (d < 10)%N ->
  pretty (10 * t + d)%N = pretty t +:+ String (pretty_N_char d) "".
Proof.
  intros Ht Hd. unfold pretty, pretty_N.
  rewrite !decide_False by lia.
  rewrite pretty_N_go_step by lia.
  assert (((10 * t + d) `div` 10)%N = t) as ->
    by (symmetry; apply (N.div_unique _ 10 t d); [exact Hd | reflexivity]).
  assert (((10 * t + d) `mod` 10)%N = d) as ->
    by (symmetry; apply (N.mod_unique _ 10 t d); [exact Hd | reflexivity]).
  apply pretty_N_go_acc.
Qed.

Lemma pretty_Z_pos (z : Z) : 0 < z -> pretty z = pretty (Z.to_N z).
Proof. destruct z; intros Hz; try lia. reflexivity. Qed.

Lemma pretty_Z_digit (d : Z) :
  0 <= d < 10 -> pretty d = String (pretty_N_char (Z.to_N d)) "".
Proof.
  intros Hd.
  assert (d = 0 \/ d = 1 \/ d = 2 \/ d = 3 \/ d = 4 \/ d = 5 \/ d = 6 \/ d = 7
          \/ d = 8 \/ d = 9) as Hc by lia.
  repeat (destruct Hc as [->|Hc]; [reflexivity|]). subst d. reflexivity.
Qed.

Lemma pretty_Z_snoc (t d : Z) :
  0 < t -> 0 <= d < 10 -> pretty (10 * t + d) = pretty t +:+ pretty d.
Proof.
  intros Ht Hd.
  rewrite (pretty_Z_pos (10 * t + d)) by lia.
  rewrite (pretty_Z_pos t) by lia.
  rewrite (pretty_Z_digit d) by lia.
  replace (Z.to_N (10 * t + d)) with (10 * Z.to_N t + Z.to_N d)%N by lia.
  apply pretty_N_snoc; lia.
Qed.

(** A number written after another reads as one number: [b] has [k + 1]
    digits. *)
Lemma pretty_Z_concat (k : nat) : forall a b : Z,
  0 < a -> 10 ^ Z.of_nat k <= b < 10 ^ Z.of_nat (S k) ->
  pretty (a * 10 ^ Z.of_nat (S k) + b) = pretty a +:+ pretty b.
Proof.
  induction k as [|k IH]; intros a b Ha Hb.
  - change (10 ^ Z.of_nat 0) with 1 in Hb. change (10 ^ Z.of_nat 1) with 10 in *.
    replace (a * 10 + b) with (10 * a + b) by lia.
    apply pretty_Z_snoc; lia.
  - assert (Hp1 : 10 ^ Z.of_nat (S k) = 10 * 10 ^ Z.of_nat k)
      by (rewrite Nat2Z.inj_succ, Z.pow_succ_r by lia; reflexivity).
    assert (Hp2 : 10 ^ Z.of_nat (S (S k)) = 10 * 10 ^ Z.of_nat (S k))
      by (rewrite (Nat2Z.inj_succ (S k)), Z.pow_succ_r by lia; reflexivity).
    assert (0 < 10 ^ Z.of_nat k) by (apply Z.pow_pos_nonneg; lia).
    pose proof (Z.div_mod b 10 ltac:(lia)) as Hdm.
    pose proof (Z.mod_pos_bound b 10 ltac:(lia)) as Hmod.
    assert (HIH : pretty (a * 10 ^ Z.of_nat (S k) + b / 10) = pretty a +:+ pretty (b / 10))
      by (apply IH; lia).
    rewrite Hp2.
    replace (a * (10 * 10 ^ Z.of_nat (S k)) + b)
      with (10 * (a * 10 ^ Z.of_nat (S k) + b / 10) + b mod 10) by lia.
    rewrite pretty_Z_snoc by nia.
    rewrite HIH, string_app_assoc.
    rewrite <- pretty_Z_snoc by lia.
    now rewrite <- Hdm.
Qed.

(** ** What the block hash and the signatures cover *)

Lemma origin_le_antisym a b :
  origin_le a b -> origin_le b a -> TransactionStruct.origin a = TransactionStruct.origin b.
Proof. unfold origin_le. intros Hab Hba. now apply (anti_symm String.le). Qed.

Lemma origin_le_refl a : origin_le a a.
Proof. unfold origin_le. reflexivity. Qed.

Lemma sorted_unique l1 : forall l2,
  StronglySorted origin_le l1 -> StronglySorted origin_le l2 ->
  Permutation l1 l2 -> one_per_origin l1 -> l1 = l2.
Proof.
  induction l1 as [|a l1 IH]; intros l2 Hs1 Hs2 Hperm Hnd.
  - now apply Permutation_nil in Hperm.
  - destruct l2 as [|b l2]; [now apply Permutation_sym, Permutation_nil in Hperm|].
    apply StronglySorted_inv in Hs1 as [Hs1 Ha].
    apply StronglySorted_inv in Hs2 as [Hs2 Hb].
    rewrite List.Forall_forall in Ha, Hb.
    unfold one_per_origin in Hnd. simpl in Hnd.
    apply List.NoDup_cons_iff in Hnd as [Hnotin Hnd].
    assert (Hba : origin_le b a).
    { assert (Hin : List.In a (b :: l2))
        by (eapply Permutation_in; [exact Hperm | now left]).
      destruct Hin as [->|Hin]; [apply origin_le_refl | now apply Hb]. }
    assert (Hin : List.In b (a :: l1))
      by (eapply Permutation_in; [apply Permutation_sym; exact Hperm | now left]).
    assert (a = b) as <-.
    { destruct Hin as [Heq|Hin]; [exact Heq|]. exfalso. apply Hnotin.
      rewrite (origin_le_antisym a b (Ha b Hin) Hba).
      now apply List.in_map. }
    f_equal. apply IH; [exact Hs1 | exact Hs2 | | exact Hnd].
    eapply Permutation_cons_inv. exact Hperm.
Qed.

Section BlockCoverage.
Context `{Externals}.

(** X11: with one transaction per origin, the block does not depend on
    the order in which the transactions are handed to the constructor:
    any rearrangement of them gives the same block, hash and signature
    included. *)
Theorem block_independent_of_order previousBlock tx tx' wallet now :
  Permutation tx tx' ->
  one_per_origin tx ->
  Block.new previousBlock tx wallet now = Block.new previousBlock tx' wallet now.
Proof.
  intros Hperm Hnd.
  assert (Hsort : Array_sort by_origin tx = Array_sort by_origin tx').
  { apply sorted_unique; try apply sorted_by_origin.
    - rewrite <- (Array_sort_perm by_origin tx), <- (Array_sort_perm by_origin tx').
      exact Hperm.
    - unfold one_per_origin in *. eapply Permutation_NoDup; [|exact Hnd].
      apply Permutation_map, Array_sort_perm. }
  unfold Block.new. cbv zeta. now rewrite Hsort.
Qed.

(** X12: transactions that come in ascending order of origin, one per
    origin, are stored in the block as they come. *)
Theorem block_keeps_sorted_tx previousBlock tx wallet now :
  StronglySorted origin_le tx ->
  one_per_origin tx ->
  Block.tx (Block.new previousBlock tx wallet now) = tx.
Proof.
  intros Hs Hnd. symmetry. simpl.
  apply sorted_unique; [exact Hs | apply sorted_by_origin | apply Array_sort_perm | exact Hnd].
Qed.

Lemma blockHash_shift block t d :
  0 < t -> 0 <= d <= 9 ->
  Block.blockHash (with_time_height block t (10 + d)) =
    Block.blockHash (with_time_height block (10 * t + 1) d).
Proof.
  intros Ht Hd. unfold Block.blockHash. simpl. f_equal. f_equal. f_equal.
  replace (10 + d) with (10 * 1 + d) by lia.
  rewrite !pretty_Z_snoc by lia.
  now rewrite !string_app_assoc.
Qed.

(** X13: the hash input runs timestamp and height together, so the
    block hash does not tell them apart: a block with timestamp [t] and
    height [10 + d] and the block with timestamp [10 * t + 1] and height
    [d], all else equal, have the same [blockHash]. *)
Theorem blockHash_runs_fields_together block t d :
  0 < t -> 0 <= d <= 9 ->
  Block.blockHash (with_time_height block t (10 + d)) =
    Block.blockHash (with_time_height block (10 * t + 1) d).
Proof. apply blockHash_shift. Qed.

Lemma built_block_signature previousBlock tx wallet now :
  Wallet.well_keyed wallet ->
  let B := Block.get (Block.new previousBlock tx wallet now) in
  ChainUtil_verifySignature (BlockStruct.origin B) (BlockStruct.sig B)
    (BlockStruct.hash B) = true.
Proof.
  intros Hk B. subst B. simpl. unfold Wallet.getPublicKey, Wallet.sign.
  apply sign_verifies. exact Hk.
Qed.

(** X14: [verifyBlock] looks at [origin], [sig] and [hash] alone: any
    struct that carries these three fields of a block built with a
    well-keyed wallet is accepted, whatever its transactions, height,
    timestamp, previous hash and votes. *)
Theorem verifyBlock_accepts_any_content previousBlock tx wallet now (block : BlockStruct.t) :
  Wallet.well_keyed wallet ->
  let B := Block.get (Block.new previousBlock tx wallet now) in
  BlockStruct.origin block = BlockStruct.origin B ->
  BlockStruct.sig block = BlockStruct.sig B ->
  BlockStruct.hash block = BlockStruct.hash B ->
  Block.verifyBlock block = true.
Proof.
  intros Hk B Ho Hs Hh. unfold Block.verifyBlock. rewrite Ho, Hs, Hh.
  apply built_block_signature. exact Hk.
Qed.

(** X15: a second block passes both checks the code has.  From a block
    built at height [10 + d] and clock reading [now > 0], the struct with
    height [d] and timestamp [10 * now + 1], all else equal, has a [hash]
    field that [blockHash] recomputes, and is accepted by [verifyBlock];
    the secret key is not needed to make it. *)
Theorem block_at_other_height_passes previousBlock tx wallet now d :
  Wallet.well_keyed wallet ->
  0 < now -> 0 <= d <= 9 ->
  BlockStruct.height previousBlock + 1 = 10 + d ->
  let B := Block.get (Block.new previousBlock tx wallet now) in
  let B' := with_time_height B (10 * now + 1) d in
  Block.blockHash B' = BlockStruct.hash B'
  /\ Block.verifyBlock B' = true
  /\ BlockStruct.height B' <> BlockStruct.height B
  /\ BlockStruct.timestamp B' <> BlockStruct.timestamp B.
Proof.
  intros Hk Hnow Hd Hh B B'. subst B'. split; [|split; [|split]].
  - rewrite <- blockHash_shift by lia.
    unfold Block.blockHash. subst B. simpl. now rewrite Hh.
  - unfold Block.verifyBlock. simpl. apply built_block_signature. exact Hk.
  - subst B. simpl. lia.
  - subst B. simpl. lia.
Qed.

(** X16: the signed message runs ident and timestamp together.  When a
    transaction is built with the ident [i +:+ pretty a] at a clock
    reading [now] of [k + 1] digits, its signature also verifies for the
    transaction with ident [i] and timestamp [a] followed by the digits
    of [now], all else equal. *)
Theorem transaction_signature_covers_other wallet commands i a (k : nat) now rnd :
  Wallet.well_keyed wallet ->
  0 < a ->
  10 ^ Z.of_nat k <= now < 10 ^ Z.of_nat (S k) ->
  (1 <= String.length (i +:+ pretty a) <= 32)%nat ->
  let T := Transaction.new wallet commands (i +:+ pretty a) now rnd in
  let T' := with_ident_timestamp T i (a * 10 ^ Z.of_nat (S k) + now) in
  ChainUtil_verifySignature (TransactionStruct.origin T') (TransactionStruct.sig T')
    (tx_message T') = true
  /\ TransactionStruct.timestamp T' <> TransactionStruct.timestamp T.
Proof.
  intros Hk Ha Hnow Hlen T T'.
  assert (Hid : TransactionStruct.ident T = i +:+ pretty a).
  { subst T. rewrite ident_rule.
    assert (Nat.ltb 0 (String.length (i +:+ pretty a)) = true) as ->
      by (apply Nat.ltb_lt; lia).
    assert (Nat.leb (String.length (i +:+ pretty a)) 32 = true) as ->
      by (apply Nat.leb_le; lia).
    reflexivity. }
  split.
  - assert (Hmsg : tx_message T' = tx_message T).
    { subst T'. unfold tx_message, with_ident_timestamp. cbn [TransactionStruct.ident
        TransactionStruct.timestamp TransactionStruct.commands].
      rewrite Hid, (pretty_Z_concat k a now Ha Hnow), !string_app_assoc.
      subst T. reflexivity. }
    rewrite Hmsg. subst T' T. unfold tx_message. simpl.
    unfold Wallet.getPublicKey, Wallet.sign.
    apply sign_verifies. exact Hk.
  - subst T' T. simpl.
    assert (0 < 10 ^ Z.of_nat (S k)) by (apply Z.pow_pos_nonneg; lia). nia.
Qed.

End BlockCoverage.

(** ** The further properties applied to the sample instance *)

Lemma stackTx_numbers_in_place_witness :
  exists c', number_in_place 1 Sample.refs_aliased Sample.heap_2 !! 0%nat = Some c'
    /\ get_prop "seq" c' = Some (JNumber 2)
    /\ (forall k, k <> "seq" -> get_prop k c' = get_prop k Sample.test_load).
Proof.
  apply (proj1 (stackTx_numbers_in_place Sample.refs_aliased Sample.heap_2)
           1%nat 0%nat Sample.test_load).
  - reflexivity.
  - intros j Hj. destruct j as [|[|[|j]]]; try lia; simpl; discriminate.
  - reflexivity.
Defined.

Lemma isValid_accepts_signed_transaction_witness :
  TransactionPool.isValid (H := Sample.externals) Sample.pool_entry = true.
Proof.
  apply (isValid_accepts_signed_transaction (H := Sample.externals) Sample.pool_entry
           "pub-k1" "k1" Sample.pool_payload); reflexivity.
Defined.

Lemma incStakeCredit_restores_witness :
  Server.credit_of
    (Server.mapStakeCredit (Server.incStakeCredit Sample.server_1 "pub-b")) "pub-b" = 0.
Proof.
  apply (proj1 (incStakeCredit_restores Sample.env_4 Sample.server_0 "pub-b" "m1" 1
                  eq_refl eq_refl) "pub-b").
Defined.

Lemma proposeModifyStake_key_overlap_witness :
  Server.proposeModifyStake Sample.env_4 Sample.server_1 "pub-" "bm1" 1 = Sample.server_1.
Proof.
  apply (proposeModifyStake_key_overlap Sample.env_4 Sample.server_1 "pub-" "b" "m1" 1).
  vm_compute. reflexivity.
Defined.

Lemma credit_floors_kept_witness :
  above_floor Sample.env_4
    (Server.mapStakeCredit (run_ops Sample.env_4 Sample.credit_ops Sample.server_0))
  /\ above_global_floor Sample.env_4
       (Server.mapStakeCredit (run_ops Sample.env_4 Sample.credit_ops Sample.server_0)).
Proof.
  apply (credit_floors_kept Sample.env_4 Sample.credit_ops Sample.server_0).
  - intros k. unfold Server.credit_of. simpl. rewrite lookup_empty. reflexivity.
  - vm_compute. reflexivity.
Defined.

Lemma block_independent_of_order_witness :
  Block.new (H := Sample.externals) Sample.genesis [Sample.tx_b1; Sample.tx_a]
    Sample.wallet 100
  = Block.new (H := Sample.externals) Sample.genesis [Sample.tx_a; Sample.tx_b1]
      Sample.wallet 100.
Proof.
  apply (block_independent_of_order (H := Sample.externals)).
  - apply perm_swap.
  - unfold one_per_origin. simpl. constructor.
    + intros [Heq|[]]. discriminate.
    + constructor; [intros [] | constructor].
Defined.

Lemma block_keeps_sorted_tx_witness :
  Block.tx (Block.new (H := Sample.externals) Sample.genesis [Sample.tx_a; Sample.tx_b1]
              Sample.wallet 100) = [Sample.tx_a; Sample.tx_b1].
Proof.
  apply (block_keeps_sorted_tx (H := Sample.externals)).
  - constructor; [constructor; [constructor | constructor]|].
    constructor; [exact I | constructor].
  - unfold one_per_origin. simpl. constructor.
    + intros [Heq|[]]. discriminate.
    + constructor; [intros [] | constructor].
Defined.

Lemma blockHash_runs_fields_together_witness :
  Block.blockHash (H := Sample.externals) (with_time_height Sample.block_1 100 11)
  = Block.blockHash (H := Sample.externals) (with_time_height Sample.block_1 1001 1).
Proof.
  apply (blockHash_runs_fields_together (H := Sample.externals) Sample.block_1 100 1); lia.
Defined.

Lemma verifyBlock_accepts_any_content_witness :
  Block.verifyBlock (H := Sample.externals) Sample.block_out_of_order = true.
Proof.
  apply (verifyBlock_accepts_any_content (H := Sample.externals) Sample.genesis
           [Sample.tx_b1; Sample.tx_a] Sample.wallet 100 Sample.block_out_of_order);
    reflexivity.
Defined.

Lemma block_at_other_height_passes_witness :
  Block.verifyBlock (H := Sample.externals)
    (with_time_height Sample.block_10 1001 0) = true
  /\ BlockStruct.height (with_time_height Sample.block_10 1001 0)
     <> BlockStruct.height Sample.block_10.
Proof.
  destruct (block_at_other_height_passes (H := Sample.externals) Sample.tip_9
              [Sample.tx_b1; Sample.tx_a] Sample.wallet 100 0)
    as (_ & Hv & Hh & _); [reflexivity | lia | lia | reflexivity |].
  split; [exact Hv | exact Hh].
Defined.

Lemma transaction_signature_covers_other_witness :
  let T := Transaction.new (H := Sample.externals) Sample.wallet [Sample.test_load] "abc1"
             700000000000 true in
  Sample.verify (TransactionStruct.origin T) (TransactionStruct.sig T)
    (tx_message (with_ident_timestamp T "abc" 1700000000000)) = true.
Proof.
  apply (proj1 (transaction_signature_covers_other (H := Sample.externals) Sample.wallet
                  [Sample.test_load] "abc" 1 11 700000000000 true
                  eq_refl ltac:(lia) ltac:(lia) ltac:(simpl; lia))).
Defined.
